(** * vf_genericshader: a shallow embedding and its verified properties

    The development embeds [src/libavfilter/vf_genericshader.c], the
    FFmpeg video filter that renders every frame through an OpenGL
    fragment shader built from a pluggable [transition] function.

    - C [float] and [double] values are IEEE 754 binary32 and binary64
      numbers, modelled with the Standard Library's [spec_float] and its
      correctly rounded operations (round to nearest, ties to even).
    - C strings are [string]s read up to their first NUL character.
    - Calls into OpenGL, GLFW, libc and libavfilter are recorded in a
      trace; what those libraries answer is supplied by an oracle record.
    - The first part holds every definition, the second part the proofs. *)

From Stdlib Require Import ZArith List String Ascii Bool Lia Reals Lra.
From Stdlib Require Import Floats.SpecFloat.
Import ListNotations.
Open Scope Z_scope.

(* ================================================================== *)
(** * Part I: the embedding                                            *)
(* ================================================================== *)

(** ** Machine integers *)

(** Conversion of an out-of-range value to C [int] (32 bits, two's
    complement, reduction modulo 2^32 as gcc and clang define it). *)
Definition to_int (z : Z) : Z := (z + 2 ^ 31) mod 2 ^ 32 - 2 ^ 31.

(** Conversion to [size_t] / [unsigned long] on an LP64 target. *)
Definition to_size_t (z : Z) : Z := z mod 2 ^ 64.

Definition INT_MAX : Z := 2 ^ 31 - 1.
Definition INT64_MIN : Z := - 2 ^ 63.

(** [AV_NOPTS_VALUE] is [INT64_C(0x8000000000000000)]. *)
Definition AV_NOPTS_VALUE : Z := INT64_MIN.

(** Modelled from the spec: [AVERROR] and [ENOMEM] come from
    libavutil/error.h and errno.h, which are not under src/; the spec only
    says an allocation failure is surfaced as an out-of-memory condition.
    [AVERROR(e)] is [-e] and [ENOMEM] is 12 on the POSIX targets. *)
Definition ENOMEM : Z := 12.
Definition AVERROR (e : Z) : Z := - e.

(** ** IEEE 754 arithmetic as the C code uses it *)

Module Ieee.

(** [float] is binary32 (24-bit significand), [double] is binary64. *)
Definition prec32 : Z := 24.
Definition emax32 : Z := 128.
Definition prec64 : Z := 53.
Definition emax64 : Z := 1024.

(** Conversion of a value to the format [(prec, emax)]: special values are
    kept, a finite value is rounded to nearest-even. *)
Definition convert (prec emax : Z) (x : spec_float) : spec_float :=
  match x with
  | S754_finite s m e => binary_round prec emax s m e
  | _ => x
  end.

(** [(float) i] for an integer [i]. *)
Definition f32_of_int (z : Z) : spec_float :=
  binary_normalize prec32 emax32 z 0 false.

(** Promotion [float -> double] and the conversion [double -> float]
    performed when a [double] initialises a [float] object. *)
Definition f64_of_f32 : spec_float -> spec_float := convert prec64 emax64.
Definition f32_of_f64 : spec_float -> spec_float := convert prec32 emax32.

Definition f32_div : spec_float -> spec_float -> spec_float :=
  SFdiv prec32 emax32.
Definition f64_sub : spec_float -> spec_float -> spec_float :=
  SFsub prec64 emax64.
Definition f64_div : spec_float -> spec_float -> spec_float :=
  SFdiv prec64 emax64.

(** The C comparison [a > b]; false when either side is a NaN. *)
Definition gt (a b : spec_float) : bool := SFltb b a.

(** The literals [0.0f] and [1.0f], and the [double] constant 1.0. *)
Definition f32_zero : spec_float := S754_zero false.
Definition f32_one : spec_float := Eval cbv in f32_of_int 1.
Definition f64_one : spec_float :=
  Eval cbv in binary_normalize prec64 emax64 1 0 false.

(** Modelled from the spec: [FFMAX] and [FFMIN] are macros of libavutil,
    not under src/; the spec describes their combined use as
    [clamp(x, 0.0, 1.0)].  They are the conditional expressions
    [((a) > (b) ? (a) : (b))] and [((a) > (b) ? (b) : (a))]. *)
Definition FFMAX (a b : spec_float) : spec_float := if gt a b then a else b.
Definition FFMIN (a b : spec_float) : spec_float := if gt a b then b else a.

(** IEEE [<=] as a proposition. *)
Definition le (a b : spec_float) : Prop := SFleb a b = true.

End Ieee.

(** ** Shader sources and their composition *)

Module Shader.

Open Scope string_scope.

Definition nl : string := String "010" EmptyString.

Definition v_shader_source : string :=
  "attribute vec2 position;" ++ nl ++
  "varying vec2 _uv;" ++ nl ++
  "void main(void) {" ++ nl ++
  "  gl_Position = vec4(position, 0, 1);" ++ nl ++
  "  vec2 uv = position * 0.5 + 0.5;" ++ nl ++
  "  _uv = uv;" ++ nl ++
  "}" ++ nl.

(** The declarations that open the fragment-shader template. *)
Definition uniform_declarations : string :=
  "uniform sampler2D to;" ++ nl ++
  "varying vec2 _uv;" ++ nl ++
  "uniform float progress;" ++ nl ++
  "uniform vec2 resolution;".

(** The template text after its [%s] conversion. *)
Definition template_suffix : string :=
  nl ++
  nl ++
  "void main() {" ++ nl ++
  "  gl_FragColor = transition(_uv);" ++ nl ++
  "}" ++ nl.

Definition f_shader_template : string :=
  "uniform sampler2D to;" ++ nl ++
  "varying vec2 _uv;" ++ nl ++
  "uniform float progress;" ++ nl ++
  "uniform vec2 resolution;" ++
  nl ++
  nl ++ "%s" ++ nl ++
  nl ++
  "void main() {" ++ nl ++
  "  gl_FragColor = transition(_uv);" ++ nl ++
  "}" ++ nl.

Definition f_default_transition_source : string :=
  "vec4 transition (vec2 uv) {" ++ nl ++
  "  return texture2D(to, uv);" ++ nl ++
  "}" ++ nl.

(** What a C function sees of a character buffer: the bytes before the
    first NUL. *)
Fixpoint c_str (s : string) : string :=
  match s with
  | EmptyString => EmptyString
  | String c rest =>
      if Ascii.eqb c "000" then EmptyString else String c (c_str rest)
  end.

Definition strlen (s : string) : Z := Z.of_nat (String.length (c_str s)).

(** The text [vsnprintf] produces for a format with one string argument:
    [%s] copies the argument, [%%] is a percent sign, every other
    character is copied; any other conversion is outside the model. *)
Fixpoint format (fmt arg : string) : option string :=
  match fmt with
  | EmptyString => Some EmptyString
  | String c rest =>
      if Ascii.eqb c "%" then
        match rest with
        | EmptyString => None
        | String d rest' =>
            if Ascii.eqb d "s" then
              option_map (String.append (c_str arg)) (format rest' arg)
            else if Ascii.eqb d "%" then
              option_map (String "%") (format rest' arg)
            else None
        end
      else option_map (String c) (format rest arg)
  end.

(** The first [n] characters of [s]. *)
Fixpoint truncate (n : nat) (s : string) : string :=
  match n, s with
  | S n', String c rest => String c (truncate n' rest)
  | _, _ => EmptyString
  end.

(** [snprintf(buf, size, fmt, arg)] into a zero-filled buffer: at most
    [size - 1] characters are stored (none when [size] is 0); the result is
    the C string left in the buffer. *)
Definition snprintf (size : Z) (fmt arg : string) : string :=
  match format fmt arg with
  | Some full => truncate (Z.to_nat (size - 1)) full
  | None => EmptyString
  end.

(** Line 133: [int len = strlen(f_shader_template) + strlen(transition_source)],
    given the two lengths. *)
Definition source_len (tlen blen : Z) : Z := to_int (tlen + blen).

(** The byte count handed to [av_calloc] and to [snprintf]:
    [len * sizeof(GLchar)] converted to [size_t]. *)
Definition source_size (tlen blen : Z) : Z :=
  to_size_t (source_len tlen blen * 1).

(** Length of the composed text when it is written in full: the template
    without its two-character [%s], plus the transition body. *)
Definition composed_len (tlen blen : Z) : Z := tlen - 2 + blen.

(** Number of characters [snprintf] stores for a text of [n] characters in
    a buffer of [size] bytes. *)
Definition stored_len (size n : Z) : Z := Z.min n (Z.max 0 (size - 1)).

(** Lines 133 and 139 together: the text left in [gs->f_shader_source]
    for a given transition source once the buffer has been allocated. *)
Definition compose (transition_source : string) : string :=
  snprintf (source_size (strlen f_shader_template) (strlen transition_source))
    f_shader_template transition_source.

(** A transition source of [n] times the character [c]. *)
Fixpoint replicate (n : nat) (c : ascii) : string :=
  match n with
  | O => EmptyString
  | S n' => String c (replicate n' c)
  end.

(** A transition source of 4 GiB: 2^32 times the letter a. *)
Definition four_GiB_source : string := replicate (Z.to_nat (2 ^ 32)) "a".

(** Number of [%s] conversions [format] performs for a format string. *)
Fixpoint conversions (fmt : string) : nat :=
  match fmt with
  | EmptyString => O
  | String c rest =>
      if Ascii.eqb c "%" then
        match rest with
        | EmptyString => O
        | String d rest' =>
            if Ascii.eqb d "s" then S (conversions rest') else conversions rest'
        end
      else conversions rest
  end.

End Shader.

(** ** The outside world: external calls and their answers *)

Inductive shader_type := GL_VERTEX_SHADER | GL_FRAGMENT_SHADER.

(** Messages handed to [av_log]. *)
Inductive log_msg :=
| Invalid_vertex_shader
| Invalid_glsl_source_file (path : string)
| Invalid_fragment_shader
| Config_props_setup_gl_error
| Width_height (w h : Z).

Record AVRational := { num : Z; den : Z }.

Record AVFilterLink := { w : Z; h : Z; time_base : AVRational }.

(** The fields of an [AVFrame] the filter touches: the timestamp, which
    stands for the properties [av_frame_copy_props] copies, and plane 0. *)
Record AVFrame := { pts : Z; data : list Z }.

(** What [fopen] and the calls on the opened stream answer: the position
    [ftell] reports at end of file, whether [fread] delivered its one
    item, and the first [fsize] bytes of the buffer after the [fread] call
    (the file's bytes when the read succeeded, indeterminate otherwise). *)
Record file := { ftell_end : Z; fread_ok : bool; buffer_bytes : string }.

(** The answers of OpenGL, GLFW, libc and libavfilter. *)
Record oracle := {
  o_glfwInit : bool;
  o_glfwCreateWindow : Z;
  o_glCreateShader : shader_type -> Z;
  o_glIsShader : Z -> bool;
  o_compile_status : Z -> string -> bool;
  o_info_log : Z -> string -> string;
  o_fopen : string -> option file;
  o_malloc : Z -> bool;
  o_av_calloc : Z -> Z -> bool;
  o_glCreateProgram : Z;
  o_link_status : Z -> bool;
  o_glGenBuffers : Z;
  o_glGenTextures : Z;
  o_glGetAttribLocation : Z -> string -> Z;
  o_glGetUniformLocation : Z -> string -> Z;
  o_ff_get_video_buffer : Z -> Z -> option (list Z);
  o_glReadPixels : Z -> Z -> list Z;
  o_ff_filter_frame : AVFrame -> Z;
  o_ff_set_common_formats : list Z -> Z
}.

(** An external call as it appears in the trace, with the arguments the
    filter passes and, for the calls that create something, the answer. *)
Inductive call :=
| GlfwInit
| GlfwWindowHint (hint value : Z)
| GlfwCreateWindow (width height ret : Z)
| GlfwMakeContextCurrent (window : Z)
| GlewInit
| GlViewport (x y width height : Z)
| GlCreateShader (ty : shader_type) (ret : Z)
| GlIsShader (shader : Z)
| GlShaderSource (shader : Z) (src : string)
| GlCompileShader (shader : Z)
| GlGetShaderiv_compile_status (shader : Z)
| GlCreateProgram (ret : Z)
| GlAttachShader (program shader : Z)
| GlLinkProgram (program : Z)
| GlGetProgramiv_link_status (program : Z)
| GlUseProgram (program : Z)
| GlGenBuffers (ret : Z)
| GlBindBuffer (buffer : Z)
| GlBufferData (vertices : list spec_float)
| GlGetAttribLocation (program : Z) (name : string)
| GlEnableVertexAttribArray (loc : Z)
| GlVertexAttribPointer (loc size : Z)
| GlGenTextures (ret : Z)
| GlActiveTexture (unit : Z)
| GlBindTexture (texture : Z)
| GlTexParameteri (pname param : Z)
| GlTexImage2D (width height : Z) (pixels : option (list Z))
| GlGetUniformLocation (program : Z) (name : string)
| GlUniform1i (loc v : Z)
| GlUniform1f (loc : Z) (v : spec_float)
| GlUniform2f (loc : Z) (v0 v1 : spec_float)
| GlDrawArrays (first count : Z)
| GlReadPixels (width height : Z)
| GlDeleteTextures (texture : Z)
| GlDeleteProgram (program : Z)
| GlDeleteBuffers (buffer : Z)
| GlfwDestroyWindow (window : Z)
| Fopen (path : string) (ok : bool)
| Fseek_end
| Ftell
| Fseek_set
| Malloc (size : Z) (ok : bool)
| Fread (size : Z)
| Fclose
| Free
| Av_calloc (nmemb size : Z) (ok : bool)
| Av_freep
| Av_frame_free
| Av_frame_copy_props
| Ff_get_video_buffer (width height : Z) (ok : bool)
| Ff_filter_frame (out : AVFrame)
| Ff_set_common_formats (fmts : list Z)
| Av_log (msg : log_msg).

(** ** The filter *)

(** The private context; [class] carries no state of the filter.  A
    pointer field is 0 or [None] when it is NULL. *)
Record GenericShaderContext := {
  duration : spec_float;
  offset : spec_float;
  source : option string;
  first_pts : Z;
  progress : Z;
  frame_tex : Z;
  program : Z;
  pos_buf : Z;
  window : Z;
  f_shader_source : option string
}.

(** The context as libavfilter hands it to [init]: zero-filled, then the
    three options set. *)
Definition fresh_context (dur off : spec_float) (src : option string)
  : GenericShaderContext :=
  {| duration := dur; offset := off; source := src; first_pts := 0;
     progress := 0; frame_tex := 0; program := 0; pos_buf := 0;
     window := 0; f_shader_source := None |}.

Definition set_first_pts (v : Z) (c : GenericShaderContext) :=
  {| duration := duration c; offset := offset c; source := source c;
     first_pts := v; progress := progress c; frame_tex := frame_tex c;
     program := program c; pos_buf := pos_buf c; window := window c;
     f_shader_source := f_shader_source c |}.

Definition set_progress (v : Z) (c : GenericShaderContext) :=
  {| duration := duration c; offset := offset c; source := source c;
     first_pts := first_pts c; progress := v; frame_tex := frame_tex c;
     program := program c; pos_buf := pos_buf c; window := window c;
     f_shader_source := f_shader_source c |}.

Definition set_frame_tex (v : Z) (c : GenericShaderContext) :=
  {| duration := duration c; offset := offset c; source := source c;
     first_pts := first_pts c; progress := progress c; frame_tex := v;
     program := program c; pos_buf := pos_buf c; window := window c;
     f_shader_source := f_shader_source c |}.

Definition set_program (v : Z) (c : GenericShaderContext) :=
  {| duration := duration c; offset := offset c; source := source c;
     first_pts := first_pts c; progress := progress c;
     frame_tex := frame_tex c; program := v; pos_buf := pos_buf c;
     window := window c; f_shader_source := f_shader_source c |}.

Definition set_pos_buf (v : Z) (c : GenericShaderContext) :=
  {| duration := duration c; offset := offset c; source := source c;
     first_pts := first_pts c; progress := progress c;
     frame_tex := frame_tex c; program := program c; pos_buf := v;
     window := window c; f_shader_source := f_shader_source c |}.

Definition set_window (v : Z) (c : GenericShaderContext) :=
  {| duration := duration c; offset := offset c; source := source c;
     first_pts := first_pts c; progress := progress c;
     frame_tex := frame_tex c; program := program c; pos_buf := pos_buf c;
     window := v; f_shader_source := f_shader_source c |}.

Definition set_f_shader_source (v : option string) (c : GenericShaderContext) :=
  {| duration := duration c; offset := offset c; source := source c;
     first_pts := first_pts c; progress := progress c;
     frame_tex := frame_tex c; program := program c; pos_buf := pos_buf c;
     window := window c; f_shader_source := v |}.

(** The state the filter's functions thread: the private context and the
    trace of external calls made so far, oldest first. *)
Record state := { gs : GenericShaderContext; trace : list call }.

Definition M (A : Type) : Type := state -> A * state.

Definition ret {A} (a : A) : M A := fun st => (a, st).

Definition bind {A B} (m : M A) (k : A -> M B) : M B :=
  fun st => let '(a, st') := m st in k a st'.

Notation "x <- m ;; k" := (bind m (fun x => k))
  (at level 61, m at next level, right associativity).
Notation "m ;; k" := (bind m (fun _ => k))
  (at level 61, right associativity).

Definition emit (c : call) : M unit :=
  fun st => let (g, t) := st in (tt, {| gs := g; trace := t ++ [c] |}).

Definition get : M GenericShaderContext :=
  fun st => let (g, t) := st in (g, {| gs := g; trace := t |}).

Definition update (f : GenericShaderContext -> GenericShaderContext) : M unit :=
  fun st => let (g, t) := st in (tt, {| gs := f g; trace := t |}).

Definition av_log (msg : log_msg) : M unit := emit (Av_log msg).

(** What a function of the filter returns: its [int] result, or nothing
    defined once it has written through a null pointer. *)
Inductive outcome := Return (code : Z) | Undefined.

(** Numeric values of the GL enumerators the filter passes. *)
Definition GLFW_VISIBLE : Z := 131076.
Definition GL_TEXTURE0 : Z := 33984.
Definition GL_TEXTURE_WRAP_S : Z := 10242.
Definition GL_TEXTURE_WRAP_T : Z := 10243.
Definition GL_TEXTURE_MAG_FILTER : Z := 10240.
Definition GL_TEXTURE_MIN_FILTER : Z := 10241.
Definition GL_CLAMP_TO_EDGE : Z := 33071.
Definition GL_LINEAR : Z := 9729.
Definition AV_PIX_FMT_RGB24 : Z := 2.

(** The quad: two triangles over the normalized device square. *)
Definition position : list spec_float :=
  map Ieee.f32_of_int [-1; -1; 1; -1; -1; 1; -1; 1; 1; -1; 1; 1].

Section Filter.

Variable env : oracle.

Definition build_shader (shader_source : string) (type : shader_type) : M Z :=
  let shader := o_glCreateShader env type in
  emit (GlCreateShader type shader) ;;
  valid <- (if shader =? 0 then ret false
            else emit (GlIsShader shader) ;; ret (o_glIsShader env shader)) ;;
  if negb valid then ret 0
  else
    emit (GlShaderSource shader shader_source) ;;
    emit (GlCompileShader shader) ;;
    emit (GlGetShaderiv_compile_status shader) ;;
    if o_compile_status env shader (Shader.c_str shader_source)
    then ret shader else ret 0.

(** Lines 109-128 of [build_program]: the transition file is read into a
    fresh buffer.  [inl] is an early return of [build_program]; [inr] is
    the value of the local [source]. *)
Definition read_transition_source : M (outcome + option string) :=
  c <- get ;;
  match source c with
  | None => ret (inr None)
  | Some path =>
      match o_fopen env path with
      | None =>
          emit (Fopen path false) ;;
          av_log (Invalid_glsl_source_file path) ;;
          ret (inl (Return (-1)))
      | Some f =>
          emit (Fopen path true) ;;
          emit Fseek_end ;;
          emit Ftell ;;
          let fsize := to_size_t (ftell_end f) in
          emit Fseek_set ;;
          let size := to_size_t (fsize + 1) in
          emit (Malloc size (o_malloc env size)) ;;
          if negb (o_malloc env size) || (size =? 0) then ret (inl Undefined)
          else
            emit (Fread fsize) ;;
            emit Fclose ;;
            ret (inr (Some (Shader.truncate (Z.to_nat fsize) (buffer_bytes f))))
      end
  end.

Definition build_program : M outcome :=
  v_shader <- build_shader Shader.v_shader_source GL_VERTEX_SHADER ;;
  if v_shader =? 0 then
    av_log Invalid_vertex_shader ;; ret (Return (-1))
  else
    loaded <- read_transition_source ;;
    match loaded with
    | inl early => ret early
    | inr source =>
        let transition_source :=
          match source with
          | Some s => s
          | None => Shader.f_default_transition_source
          end in
        let len := Shader.source_len (Shader.strlen Shader.f_shader_template)
                     (Shader.strlen transition_source) in
        let allocated := o_av_calloc env (to_size_t len) 1 in
        emit (Av_calloc (to_size_t len) 1 allocated) ;;
        if negb allocated then
          update (set_f_shader_source None) ;;
          ret (Return (AVERROR ENOMEM))
        else
          update (set_f_shader_source
                    (Some (Shader.compose transition_source))) ;;
          (match source with Some _ => emit Free | None => ret tt end) ;;
          c <- get ;;
          f_shader <- build_shader
                        (match f_shader_source c with
                         | Some s => s
                         | None => EmptyString
                         end) GL_FRAGMENT_SHADER ;;
          if f_shader =? 0 then
            av_log Invalid_fragment_shader ;; ret (Return (-1))
          else
            let prog := o_glCreateProgram env in
            emit (GlCreateProgram prog) ;;
            update (set_program prog) ;;
            emit (GlAttachShader prog v_shader) ;;
            emit (GlAttachShader prog f_shader) ;;
            emit (GlLinkProgram prog) ;;
            emit (GlGetProgramiv_link_status prog) ;;
            if o_link_status env prog then ret (Return 0)
            else ret (Return (-1))
    end.

Definition vbo_setup : M unit :=
  let buf := o_glGenBuffers env in
  emit (GlGenBuffers buf) ;;
  update (set_pos_buf buf) ;;
  emit (GlBindBuffer buf) ;;
  emit (GlBufferData position) ;;
  c <- get ;;
  let loc := o_glGetAttribLocation env (program c) "position" in
  emit (GlGetAttribLocation (program c) "position") ;;
  emit (GlEnableVertexAttribArray loc) ;;
  emit (GlVertexAttribPointer loc 2).

Definition tex_setup (inlink : AVFilterLink) : M unit :=
  let tex := o_glGenTextures env in
  emit (GlGenTextures tex) ;;
  update (set_frame_tex tex) ;;
  emit (GlActiveTexture GL_TEXTURE0) ;;
  emit (GlBindTexture tex) ;;
  emit (GlTexParameteri GL_TEXTURE_WRAP_S GL_CLAMP_TO_EDGE) ;;
  emit (GlTexParameteri GL_TEXTURE_WRAP_T GL_CLAMP_TO_EDGE) ;;
  emit (GlTexParameteri GL_TEXTURE_MAG_FILTER GL_LINEAR) ;;
  emit (GlTexParameteri GL_TEXTURE_MIN_FILTER GL_LINEAR) ;;
  emit (GlTexImage2D (w inlink) (h inlink) None) ;;
  c <- get ;;
  emit (GlGetUniformLocation (program c) "to") ;;
  emit (GlUniform1i (o_glGetUniformLocation env (program c) "to") 0).

Definition uniforms_setup (fromLink : AVFilterLink) : M unit :=
  c <- get ;;
  let loc := o_glGetUniformLocation env (program c) "progress" in
  emit (GlGetUniformLocation (program c) "progress") ;;
  update (set_progress loc) ;;
  emit (GlUniform1f loc Ieee.f32_zero) ;;
  av_log (Width_height (w fromLink) (h fromLink)) ;;
  emit (GlGetUniformLocation (program c) "resolution") ;;
  emit (GlUniform2f (o_glGetUniformLocation env (program c) "resolution")
          (Ieee.f32_of_int (w fromLink)) (Ieee.f32_of_int (h fromLink))).

Definition config_props (inlink : AVFilterLink) : M outcome :=
  emit (GlfwWindowHint GLFW_VISIBLE 0) ;;
  let win := o_glfwCreateWindow env in
  emit (GlfwCreateWindow (w inlink) (h inlink) win) ;;
  update (set_window win) ;;
  if win =? 0 then
    av_log Config_props_setup_gl_error ;; ret (Return (-1))
  else
    emit (GlfwMakeContextCurrent win) ;;
    emit GlewInit ;;
    emit (GlViewport 0 0 (w inlink) (h inlink)) ;;
    r <- build_program ;;
    match r with
    | Undefined => ret Undefined
    | Return code =>
        if code <? 0 then ret (Return code)
        else
          c <- get ;;
          emit (GlUseProgram (program c)) ;;
          vbo_setup ;;
          tex_setup inlink ;;
          uniforms_setup inlink ;;
          ret (Return 0)
    end.

(** Line 253: [ts = in->pts / (float)inlink->time_base.den - c->offset]. *)
Definition elapsed (pts den : Z) (off : spec_float) : spec_float :=
  Ieee.f32_of_f64
    (Ieee.f64_sub
       (Ieee.f64_of_f32 (Ieee.f32_div (Ieee.f32_of_int pts) (Ieee.f32_of_int den)))
       off).

(** Line 254:
    [progress = FFMAX(0.0f, FFMIN(1.0f, ts / c->duration))]. *)
Definition frame_progress (pts den : Z) (off dur : spec_float) : spec_float :=
  let ts := elapsed pts den off in
  Ieee.f32_of_f64
    (Ieee.FFMAX (Ieee.f64_of_f32 Ieee.f32_zero)
       (Ieee.FFMIN (Ieee.f64_of_f32 Ieee.f32_one)
          (Ieee.f64_div (Ieee.f64_of_f32 ts) dur))).

Definition filter_frame (inlink outlink : AVFilterLink) (frame : AVFrame) : M Z :=
  c <- get ;;
  match o_ff_get_video_buffer env (w outlink) (h outlink) with
  | None =>
      emit (Ff_get_video_buffer (w outlink) (h outlink) false) ;;
      emit Av_frame_free ;;
      ret (AVERROR ENOMEM)
  | Some _ =>
      emit (Ff_get_video_buffer (w outlink) (h outlink) true) ;;
      emit Av_frame_copy_props ;;
      emit (GlfwMakeContextCurrent (window c)) ;;
      emit (GlUseProgram (program c)) ;;
      emit (GlUniform1f (progress c)
              (frame_progress (pts frame) (den (time_base inlink))
                 (offset c) (duration c))) ;;
      emit (GlActiveTexture GL_TEXTURE0) ;;
      emit (GlBindTexture (frame_tex c)) ;;
      emit (GlTexImage2D (w inlink) (h inlink) (Some (data frame))) ;;
      emit (GlDrawArrays 0 6) ;;
      emit (GlReadPixels (w outlink) (h outlink)) ;;
      let out := {| pts := pts frame;
                    data := o_glReadPixels env (w outlink) (h outlink) |} in
      emit Av_frame_free ;;
      emit (Ff_filter_frame out) ;;
      ret (o_ff_filter_frame env out)
  end.

Definition init : M Z :=
  update (set_first_pts AV_NOPTS_VALUE) ;;
  emit GlfwInit ;;
  if negb (o_glfwInit env) then ret (-1) else ret 0.

Definition uninit : M unit :=
  c <- get ;;
  (if negb (window c =? 0) then
     emit (GlDeleteTextures (frame_tex c)) ;;
     emit (GlDeleteProgram (program c)) ;;
     emit (GlDeleteBuffers (pos_buf c)) ;;
     emit (GlfwDestroyWindow (window c))
   else ret tt) ;;
  match f_shader_source c with
  | Some _ => emit Av_freep ;; update (set_f_shader_source None)
  | None => ret tt
  end.

Definition query_formats : M Z :=
  emit (Ff_set_common_formats [AV_PIX_FMT_RGB24]) ;;
  ret (o_ff_set_common_formats env [AV_PIX_FMT_RGB24]).

End Filter.

(** ** Running the filter *)

Definition initial (c : GenericShaderContext) : state :=
  {| gs := c; trace := [] |}.

(** The frames of a stream pushed through [filter_frame] one after the
    other; the return codes are collected. *)
Fixpoint filter_frames (env : oracle) (inlink outlink : AVFilterLink)
    (frames : list AVFrame) : M (list Z) :=
  match frames with
  | [] => ret []
  | f :: rest =>
      code <- filter_frame env inlink outlink f ;;
      codes <- filter_frames env inlink outlink rest ;;
      ret (code :: codes)
  end.

(** The frames that reach the filter: all of them after a successful
    configuration, none otherwise. *)
Definition frames_after (r : outcome) (frames : list AVFrame) : list AVFrame :=
  match r with
  | Return code => if code <? 0 then [] else frames
  | Undefined => []
  end.

(** The life of one filter instance as libavfilter drives it: [init];
    when that succeeds, [config_props] on the first frame's geometry;
    when that succeeds too, the frames; and [uninit] in every case.  A
    setup function that returns a negative value ends the setup.  After
    a write through an unchecked pointer ([Undefined]) nothing is known
    of the run; it is carried on to [uninit] as after a failure. *)
Definition session (env : oracle) (inlink outlink : AVFilterLink)
    (frames : list AVFrame) : M outcome :=
  r0 <- init env ;;
  if r0 <? 0 then uninit ;; ret (Return r0)
  else
    r <- config_props env inlink ;;
    filter_frames env inlink outlink (frames_after r frames) ;;
    uninit ;;
    ret r.

(** What the caller of [config_props] gets back: the return value, the
    private context and the calls made, [av_log] lines among them. *)
Definition configure (env : oracle) (c : GenericShaderContext)
    (inlink : AVFilterLink) : outcome * state :=
  config_props env inlink (initial c).

(** The messages logged in a trace. *)
Fixpoint logged (tr : list call) : list log_msg :=
  match tr with
  | [] => []
  | Av_log m :: rest => m :: logged rest
  | _ :: rest => logged rest
  end.

(** The sources submitted for compilation in a trace. *)
Fixpoint submitted (tr : list call) : list string :=
  match tr with
  | [] => []
  | GlShaderSource _ src :: rest => src :: submitted rest
  | _ :: rest => submitted rest
  end.

(** ** Resources and their life cycle *)

Inductive resource :=
| Window (handle : Z)
| Program (handle : Z)
| Buffer (handle : Z)
| Texture (handle : Z)
| Source_buffer.

Definition resource_eqb (a b : resource) : bool :=
  match a, b with
  | Window x, Window y | Program x, Program y
  | Buffer x, Buffer y | Texture x, Texture y => x =? y
  | Source_buffer, Source_buffer => true
  | _, _ => false
  end.

Definition named (mk_resource : Z -> resource) (handle : Z) : option resource :=
  if handle =? 0 then None else Some (mk_resource handle).

(** The resource a call brings to life.  A creation that answers 0
    created nothing. *)
Definition creates (c : call) : option resource :=
  match c with
  | GlfwCreateWindow _ _ r => named Window r
  | GlCreateProgram r => named Program r
  | GlGenBuffers r => named Buffer r
  | GlGenTextures r => named Texture r
  | Av_calloc _ _ true => Some Source_buffer
  | _ => None
  end.

(** The resource a call releases.  OpenGL silently ignores the name 0 in
    [glDeleteTextures], [glDeleteProgram] and [glDeleteBuffers], and
    [glfwDestroyWindow] accepts NULL: those calls release nothing. *)
Definition releases (c : call) : option resource :=
  match c with
  | GlfwDestroyWindow r => named Window r
  | GlDeleteProgram r => named Program r
  | GlDeleteBuffers r => named Buffer r
  | GlDeleteTextures r => named Texture r
  | Av_freep => Some Source_buffer
  | _ => None
  end.

Fixpoint is_live (r : resource) (live : list resource) : bool :=
  match live with
  | [] => false
  | x :: rest => resource_eqb r x || is_live r rest
  end.

Fixpoint remove_one (r : resource) (live : list resource) : list resource :=
  match live with
  | [] => []
  | x :: rest => if resource_eqb r x then rest else x :: remove_one r rest
  end.

(** The live resources after a trace, starting from [live]; [None] as
    soon as a call releases a resource that is not live (never created,
    or released before). *)
Fixpoint lifecycle (live : list resource) (tr : list call)
  : option (list resource) :=
  match tr with
  | [] => Some live
  | c :: rest =>
      match releases c with
      | Some r =>
          if is_live r live then lifecycle (remove_one r live) rest else None
      | None =>
          match creates c with
          | Some r => lifecycle (r :: live) rest
          | None => lifecycle live rest
          end
      end
  end.

(** The resources the fields of a context name, latest created first. *)
Definition owned (c : GenericShaderContext) : list resource :=
  (if frame_tex c =? 0 then [] else [Texture (frame_tex c)]) ++
  (if pos_buf c =? 0 then [] else [Buffer (pos_buf c)]) ++
  (if program c =? 0 then [] else [Program (program c)]) ++
  (match f_shader_source c with Some _ => [Source_buffer] | None => [] end) ++
  (if window c =? 0 then [] else [Window (window c)]).

(** ** The current context *)

(** The calls that act on the OpenGL context current on the calling
    thread, [glewInit] among them; the GLFW calls do not. *)
Definition needs_context (c : call) : bool :=
  match c with
  | GlewInit | GlViewport _ _ _ _ | GlCreateShader _ _ | GlIsShader _
  | GlShaderSource _ _ | GlCompileShader _ | GlGetShaderiv_compile_status _
  | GlCreateProgram _ | GlAttachShader _ _ | GlLinkProgram _
  | GlGetProgramiv_link_status _ | GlUseProgram _ | GlGenBuffers _
  | GlBindBuffer _ | GlBufferData _ | GlGetAttribLocation _ _
  | GlEnableVertexAttribArray _ | GlVertexAttribPointer _ _ | GlGenTextures _
  | GlActiveTexture _ | GlBindTexture _ | GlTexParameteri _ _
  | GlTexImage2D _ _ _ | GlGetUniformLocation _ _ | GlUniform1i _ _
  | GlUniform1f _ _ | GlUniform2f _ _ _ | GlDrawArrays _ _ | GlReadPixels _ _
  | GlDeleteTextures _ | GlDeleteProgram _ | GlDeleteBuffers _ => true
  | _ => false
  end.

(** The window whose context is current after a trace, starting with
    [current] (0 for none); [None] as soon as a call that needs a
    context is made without one.  [glfwMakeContextCurrent] switches the
    context; [glfwDestroyWindow] detaches the context of the window it
    destroys. *)
Fixpoint current_context (current : Z) (tr : list call) : option Z :=
  match tr with
  | [] => Some current
  | GlfwMakeContextCurrent win :: rest => current_context win rest
  | GlfwDestroyWindow win :: rest =>
      current_context (if win =? current then 0 else current) rest
  | c :: rest =>
      if needs_context c && (current =? 0) then None
      else current_context current rest
  end.

(** ** The objects of a session *)





(** The number of input frames a trace frees. *)
Fixpoint frames_freed (tr : list call) : nat :=
  match tr with
  | [] => O
  | Av_frame_free :: rest => S (frames_freed rest)
  | _ :: rest => frames_freed rest
  end.

(** The frames a trace hands to the next filter. *)
Fixpoint forwarded (tr : list call) : list AVFrame :=
  match tr with
  | [] => []
  | Ff_filter_frame out :: rest => out :: forwarded rest
  | _ :: rest => forwarded rest
  end.

(** ** Real-number reading of the floating-point formats *)

Module Round.

Definition bpow (e : Z) : R := powerRZ 2 e.

(** The real value of a finite number; 0 for the others. *)
Definition B2R (f : spec_float) : R :=
  match f with
  | S754_finite s m e =>
      ((if s then - IZR (Zpos m) else IZR (Zpos m)) * bpow e)%R
  | _ => 0%R
  end.

(** Position of a real [u] in the unit interval above the integer [m]. *)
Definition inb (u : R) (m : Z) (l : location) : Prop :=
  match l with
  | loc_Exact => u = IZR m
  | loc_Inexact Lt => (IZR m < u < IZR m + / 2)%R
  | loc_Inexact Eq => u = (IZR m + / 2)%R
  | loc_Inexact Gt => (IZR m + / 2 < u < IZR m + 1)%R
  end.

Definition inb_rec (u : R) (r : shr_record) : Prop :=
  inb u (shr_m r) (loc_of_shr_record r).

(** The real [x] lies in the slot [m * 2^e, (m+1) * 2^e) at position [l]. *)
Definition located (x : R) (m e : Z) (l : location) : Prop :=
  inb (x * bpow (- e)) m l.

Definition rne : Z -> location -> Z := round_nearest_even.

(** A significand and exponent in canonical form for [(prec, emax)]. *)
Definition canon (prec emax m e : Z) : Prop :=
  emin prec emax <= e /\ 0 <= m < 2 ^ prec /\
  (e = emin prec emax \/ 2 ^ (prec - 1) <= m).

(** The same, allowing the carry [m = 2^prec] a rounding can produce. *)
Definition semi_canon (prec emax m e : Z) : Prop :=
  emin prec emax <= e /\ 0 <= m <= 2 ^ prec /\
  (e = emin prec emax \/ 2 ^ (prec - 1) <= m).

Definition normal_form (prec emax : Z) (x : R) (m e : Z) (l : location) : Prop :=
  located x m e l /\ canon prec emax m e.

(** The second half of [binary_round_aux]: renormalising a rounded
    significand and testing for overflow. *)
Definition pack (prec emax : Z) (s : bool) (n e : Z) : spec_float :=
  let '(mrs, e') := shr_fexp prec emax n e loc_Exact in
  match shr_m mrs with
  | Z0 => S754_zero s
  | Zpos m => if e' <=? emax - prec then S754_finite s m e' else S754_infinity s
  | Zneg _ => S754_nan
  end.

Definition mk (prec emax : Z) (s : bool) (m e : Z) : spec_float :=
  match m with
  | Z0 => S754_zero s
  | Zpos q => if e <=? emax - prec then S754_finite s q e else S754_infinity s
  | Zneg _ => S754_nan
  end.

(** [f] is the number of the format that the real [x] rounds to. *)
Definition rounds (prec emax : Z) (x : R) (f : spec_float) : Prop :=
  exists s m e l, normal_form prec emax (Rabs x) m e l /\
    ((x < 0)%R -> s = true) /\ ((0 < x)%R -> s = false) /\
    f = pack prec emax s (rne m l) e.

(** A number of the format: not a NaN, and canonical when finite. *)
Definition wf (prec emax : Z) (f : spec_float) : Prop :=
  match f with
  | S754_finite _ m e => canon prec emax (Zpos m) e /\ e <= emax - prec
  | S754_nan => False
  | _ => True
  end.

Definition finz (f : spec_float) : Prop :=
  match f with S754_zero _ | S754_finite _ _ _ => True | _ => False end.

Definition nonneg (f : spec_float) : Prop :=
  match f with
  | S754_zero _ | S754_finite false _ _ | S754_infinity false => True
  | _ => False
  end.

Definition nonpos (f : spec_float) : Prop :=
  match f with
  | S754_zero _ | S754_finite true _ _ | S754_infinity true => True
  | _ => False
  end.

(** Two numbers of the format in IEEE order. *)
Definition ordered (prec emax : Z) (a b : spec_float) : Prop :=
  wf prec emax a /\ wf prec emax b /\ SFleb a b = true.

End Round.

(** [a] is at most [b], or [b] is one of the two values the clamp of
    line 254 sends to 1.0: a NaN or plus infinity. *)
Definition below_or_top (prec emax : Z) (a b : spec_float) : Prop :=
  b = S754_nan \/ b = S754_infinity false \/ Round.ordered prec emax a b.

(** Zero or finite, as a test. *)
Definition is_finite (f : spec_float) : bool :=
  match f with S754_zero _ | S754_finite _ _ _ => true | _ => false end.

(** ** Vocabulary of the statements about the filter *)

(** Whether [build_shader] obtains a compiled shader from the driver. *)
Definition builds (env : oracle) (type : shader_type) (src : string) : bool :=
  negb (o_glCreateShader env type =? 0) &&
  o_glIsShader env (o_glCreateShader env type) &&
  o_compile_status env (o_glCreateShader env type) (Shader.c_str src).

(** The same oracle with another diagnostic text for every shader. *)
Definition with_info_log (env : oracle) (log : Z -> string -> string) : oracle :=
  {| o_glfwInit := o_glfwInit env;
     o_glfwCreateWindow := o_glfwCreateWindow env;
     o_glCreateShader := o_glCreateShader env;
     o_glIsShader := o_glIsShader env;
     o_compile_status := o_compile_status env;
     o_info_log := log;
     o_fopen := o_fopen env;
     o_malloc := o_malloc env;
     o_av_calloc := o_av_calloc env;
     o_glCreateProgram := o_glCreateProgram env;
     o_link_status := o_link_status env;
     o_glGenBuffers := o_glGenBuffers env;
     o_glGenTextures := o_glGenTextures env;
     o_glGetAttribLocation := o_glGetAttribLocation env;
     o_glGetUniformLocation := o_glGetUniformLocation env;
     o_ff_get_video_buffer := o_ff_get_video_buffer env;
     o_glReadPixels := o_glReadPixels env;
     o_ff_filter_frame := o_ff_filter_frame env;
     o_ff_set_common_formats := o_ff_set_common_formats env |}.

(** A context no [config_props] has touched yet. *)
Definition unconfigured (c : GenericShaderContext) : Prop :=
  window c = 0 /\ program c = 0 /\ pos_buf c = 0 /\ frame_tex c = 0 /\
  f_shader_source c = None.

(** A computation that only appends to the trace and reads nothing of it. *)
Definition framed {A} (m : M A) : Prop :=
  forall st,
    m st = (fst (m (initial (gs st))),
            {| gs := gs (snd (m (initial (gs st))));
               trace := trace st ++ trace (snd (m (initial (gs st)))) |}).

(** A call that neither creates nor releases a tracked resource. *)
Definition neutral (c : call) : Prop := creates c = None /\ releases c = None.

(** A call that hands the shader a progress value outside [0,1]; no
    other call is concerned. *)
Definition progress_in_range (c : call) : Prop :=
  match c with
  | GlUniform1f _ v => Ieee.le Ieee.f32_zero v /\ Ieee.le v Ieee.f32_one
  | _ => True
  end.

(** The GL and GLFW calls, as opposed to those into libc and libav. *)
Definition is_gl_call (c : call) : bool :=
  match c with
  | Fopen _ _ | Fseek_end | Ftell | Fseek_set | Malloc _ _ | Fread _ | Fclose
  | Free | Av_calloc _ _ _ | Av_freep | Av_frame_free | Av_frame_copy_props
  | Ff_get_video_buffer _ _ _ | Ff_filter_frame _ | Ff_set_common_formats _
  | Av_log _ => false
  | _ => true
  end.

(** The context's GL handles are only set once the window exists. *)
Definition guarded (c : GenericShaderContext) : Prop :=
  window c = 0 -> program c = 0 /\ pos_buf c = 0 /\ frame_tex c = 0.

(** The transition source [build_program] goes on with: the built-in
    transition without a path, the buffer read from the file otherwise;
    [None] when the function leaves before composing. *)
Definition loaded_source (env : oracle) (c : GenericShaderContext) : option string :=
  match source c with
  | None => Some Shader.f_default_transition_source
  | Some path =>
      match o_fopen env path with
      | None => None
      | Some f =>
          let fsize := to_size_t (ftell_end f) in
          if negb (o_malloc env (to_size_t (fsize + 1)))
             || (to_size_t (fsize + 1) =? 0)
          then None
          else Some (Shader.truncate (Z.to_nat fsize) (buffer_bytes f))
      end
  end.

(** Whether [av_calloc] grants the buffer for a transition source. *)
Definition buffer_granted (env : oracle) (ts : string) : bool :=
  o_av_calloc env
    (to_size_t (Shader.source_len (Shader.strlen Shader.f_shader_template)
                  (Shader.strlen ts))) 1.

(** The vertex shader, or the fragment shader composed from the loaded
    transition source, is refused by the driver. *)
Definition compile_fails (env : oracle) (c : GenericShaderContext) : Prop :=
  builds env GL_VERTEX_SHADER Shader.v_shader_source = false \/
  (builds env GL_VERTEX_SHADER Shader.v_shader_source = true /\
   exists ts, loaded_source env c = Some ts /\ buffer_granted env ts = true /\
     builds env GL_FRAGMENT_SHADER (Shader.compose ts) = false).

(** Everything [config_props] needs goes well. *)
Definition all_goes_well (env : oracle) (c : GenericShaderContext) : Prop :=
  o_glfwCreateWindow env <> 0 /\
  builds env GL_VERTEX_SHADER Shader.v_shader_source = true /\
  exists ts, loaded_source env c = Some ts /\ buffer_granted env ts = true /\
    builds env GL_FRAGMENT_SHADER (Shader.compose ts) = true /\
    o_link_status env (o_glCreateProgram env) = true.

(** An oracle scripted by a few answers, for concrete runs. *)
Definition scripted (win : Z) (compiles : shader_type -> bool)
    (opened : option file) (malloc_ok calloc_ok links : bool)
    (video_buffer : option (list Z)) (diagnostic : string) : oracle :=
  {| o_glfwInit := true;
     o_glfwCreateWindow := win;
     o_glCreateShader :=
       fun ty => match ty with GL_VERTEX_SHADER => 1 | GL_FRAGMENT_SHADER => 2 end;
     o_glIsShader := fun _ => true;
     o_compile_status :=
       fun sh _ => compiles (if sh =? 1 then GL_VERTEX_SHADER else GL_FRAGMENT_SHADER);
     o_info_log := fun _ _ => diagnostic;
     o_fopen := fun _ => opened;
     o_malloc := fun _ => malloc_ok;
     o_av_calloc := fun _ _ => calloc_ok;
     o_glCreateProgram := 3;
     o_link_status := fun _ => links;
     o_glGenBuffers := 4;
     o_glGenTextures := 5;
     o_glGetAttribLocation := fun _ _ => 0;
     o_glGetUniformLocation := fun _ _ => 0;
     o_ff_get_video_buffer := fun _ _ => video_buffer;
     o_glReadPixels := fun _ _ => [];
     o_ff_filter_frame := fun _ => 0;
     o_ff_set_common_formats := fun _ => 0 |}.

(** A driver that compiles the vertex shader and, when [fragment] holds,
    the fragment shader. *)
Definition accepts (fragment : bool) (ty : shader_type) : bool :=
  match ty with GL_VERTEX_SHADER => true | GL_FRAGMENT_SHADER => fragment end.

Definition sample_file (read_ok : bool) : file :=
  {| ftell_end := 3; fread_ok := read_ok; buffer_bytes := "abc" |}.

Definition sample_link : AVFilterLink :=
  {| w := 2; h := 2; time_base := {| num := 1; den := 25 |} |}.

Definition sample_context (src : option string) : GenericShaderContext :=
  fresh_context Ieee.f64_one (S754_zero false) src.

Definition sample_frame : AVFrame := {| pts := 50; data := [1; 2; 3] |}.

(** A world where everything goes well, for a given answer of [fopen]. *)
Definition sample_env (opened : option file) : oracle :=
  scripted 7 (accepts true) opened true true true (Some [0; 0; 0]) "ok".

(** The context [config_props] leaves in that world. *)
Definition sample_configured : GenericShaderContext :=
  {| duration := Ieee.f64_one; offset := S754_zero false; source := None;
     first_pts := AV_NOPTS_VALUE; progress := 0; frame_tex := 5;
     program := 3; pos_buf := 4; window := 7;
     f_shader_source :=
       Some (Shader.compose Shader.f_default_transition_source) |}.

(* ================================================================== *)
(** * Part II: proofs                                                  *)
(* ================================================================== *)

Import Round.

(** ** Powers of two and binary digits *)

Lemma bpow_pos e : (0 < bpow e)%R.
Proof. apply powerRZ_lt. lra. Qed.

Lemma bpow_add a b : bpow (a + b) = (bpow a * bpow b)%R.
Proof. apply powerRZ_add. lra. Qed.

Lemma bpow_0 : bpow 0 = 1%R.
Proof. reflexivity. Qed.

Lemma bpow_Z n : 0 <= n -> bpow n = IZR (2 ^ n).
Proof.
  intros Hn. unfold Round.bpow.
  rewrite <- (Z2Nat.id n Hn) at 1. rewrite <- pow_powerRZ.
  rewrite <- (Z2Nat.id n Hn) at 2. now rewrite pow_IZR.
Qed.

Lemma bpow_1 : bpow 1 = 2%R.
Proof. unfold Round.bpow. simpl. lra. Qed.

Lemma bpow_m1 : bpow (-1) = (/ 2)%R.
Proof. unfold Round.bpow. simpl. rewrite Rmult_1_r. reflexivity. Qed.

Lemma bpow_ge_1 n : 0 <= n -> (1 <= bpow n)%R.
Proof.
  intros Hn. rewrite bpow_Z by assumption. apply IZR_le.
  assert (0 < 2 ^ n) by (apply Z.pow_pos_nonneg; lia). lia.
Qed.

Lemma bpow_le a b : a <= b -> (bpow a <= bpow b)%R.
Proof.
  intros H. replace b with (a + (b - a)) by ring. rewrite bpow_add.
  pose proof (bpow_pos a). pose proof (bpow_ge_1 (b - a) ltac:(lia)). nra.
Qed.

Lemma bpow_lt a b : a < b -> (bpow a < bpow b)%R.
Proof.
  intros H. replace b with (a + 1 + (b - a - 1)) by ring. rewrite !bpow_add.
  pose proof (bpow_pos a). pose proof (bpow_ge_1 (b - a - 1) ltac:(lia)).
  rewrite bpow_1. nra.
Qed.

Lemma bpow_opp_r a : (bpow a * bpow (- a) = 1)%R.
Proof. rewrite <- bpow_add. now rewrite Z.add_opp_diag_r. Qed.

Lemma digits2_pos_bounds p :
  2 ^ (Zpos (digits2_pos p) - 1) <= Zpos p < 2 ^ Zpos (digits2_pos p).
Proof.
  induction p as [p IH|p IH|]; simpl digits2_pos.
  - rewrite Pos2Z.inj_succ. replace (Z.succ (Zpos (digits2_pos p)) - 1) with (Z.succ (Zpos (digits2_pos p) - 1)) by lia.
    rewrite !Z.pow_succ_r by lia. lia.
  - rewrite Pos2Z.inj_succ. replace (Z.succ (Zpos (digits2_pos p)) - 1) with (Z.succ (Zpos (digits2_pos p) - 1)) by lia.
    rewrite !Z.pow_succ_r by lia. lia.
  - simpl. lia.
Qed.

Lemma Zdigits2_bounds m : 0 < m -> 2 ^ (Zdigits2 m - 1) <= m < 2 ^ Zdigits2 m.
Proof. destruct m; try lia. intros _. apply digits2_pos_bounds. Qed.

Lemma Zdigits2_nonneg m : 0 <= Zdigits2 m.
Proof. destruct m; simpl; lia. Qed.

Lemma Zdigits2_pos m : 0 < m -> 0 < Zdigits2 m.
Proof. destruct m; simpl; lia. Qed.

Lemma Zdigits2_le_of_lt m k : 0 <= m -> 0 <= k -> m < 2 ^ k -> Zdigits2 m <= k.
Proof.
  intros Hm Hk H. destruct (Z.eq_dec m 0) as [->|Hne]; [simpl; lia|].
  destruct (Zdigits2_bounds m ltac:(lia)) as [Hl _].
  destruct (Z_le_gt_dec (Zdigits2 m) k) as [|Hgt]; [assumption|].
  assert (2 ^ k <= 2 ^ (Zdigits2 m - 1)) by (apply Z.pow_le_mono_r; lia). lia.
Qed.

Lemma Zdigits2_ge_of_le m k : 0 <= k -> 2 ^ k <= m -> k + 1 <= Zdigits2 m.
Proof.
  intros Hk H. assert (0 < 2 ^ k) by (apply Z.pow_pos_nonneg; lia).
  destruct (Zdigits2_bounds m ltac:(lia)) as [_ Hu].
  destruct (Z_le_gt_dec (k + 1) (Zdigits2 m)) as [|Hgt]; [assumption|].
  assert (2 ^ Zdigits2 m <= 2 ^ k) by (apply Z.pow_le_mono_r; lia). lia.
Qed.

Lemma inb_bounds u m l : inb u m l -> (IZR m <= u < IZR m + 1)%R.
Proof. destruct l as [|[| |]]; simpl; lra. Qed.

Lemma loc_of_shr_record_of_loc m l :
  loc_of_shr_record (shr_record_of_loc m l) = l.
Proof. now destruct l as [|[| |]]. Qed.

Lemma shr_m_shr_record_of_loc m l : shr_m (shr_record_of_loc m l) = m.
Proof. now destruct l as [|[| |]]. Qed.

Lemma IZR_xO p : IZR (Zpos p~0) = (2 * IZR (Zpos p))%R.
Proof. now rewrite <- mult_IZR. Qed.

Lemma IZR_xI p : IZR (Zpos p~1) = (2 * IZR (Zpos p) + 1)%R.
Proof. rewrite <- mult_IZR, <- plus_IZR. reflexivity. Qed.

Lemma shr_1_spec u r :
  0 <= shr_m r -> inb_rec u r ->
  0 <= shr_m (shr_1 r) /\ inb_rec (u * / 2) (shr_1 r).
Proof.
  destruct r as [m [|] [|]]; unfold Round.inb_rec; cbn [shr_m loc_of_shr_record];
    intros Hm H; (destruct m as [|[p|p|]|p]; [| | | | lia]);
    cbn [shr_1 shr_m loc_of_shr_record orb inb] in *;
    try rewrite (IZR_xO p) in H; try rewrite (IZR_xI p) in H;
    (split; [lia|]); lra.
Qed.

Lemma iter_shr_1_spec p : forall u r,
  0 <= shr_m r -> inb_rec u r ->
  0 <= shr_m (iter_pos shr_1 p r) /\
  inb_rec (u * bpow (- Zpos p)) (iter_pos shr_1 p r).
Proof.
  induction p as [p IH|p IH|]; intros u r Hm H; simpl iter_pos.
  - destruct (shr_1_spec u r Hm H) as [H1 H2].
    destruct (IH _ _ H1 H2) as [H3 H4]. destruct (IH _ _ H3 H4) as [H5 H6].
    split; [assumption|].
    replace (u * bpow (- Zpos p~1))%R with (u * / 2 * bpow (- Zpos p) * bpow (- Zpos p))%R; [assumption|].
    replace (- Zpos p~1) with (-1 + (- Zpos p + - Zpos p)) by lia.
    rewrite !bpow_add, bpow_m1. ring.
  - destruct (IH _ _ Hm H) as [H3 H4]. destruct (IH _ _ H3 H4) as [H5 H6].
    split; [assumption|].
    replace (u * bpow (- Zpos p~0))%R with (u * bpow (- Zpos p) * bpow (- Zpos p))%R; [assumption|].
    replace (- Zpos p~0) with (- Zpos p + - Zpos p) by lia.
    rewrite !bpow_add. ring.
  - cbn [Z.opp]. rewrite bpow_m1. now apply shr_1_spec.
Qed.

Lemma shr_spec r e n u :
  0 <= shr_m r -> 0 <= n -> inb_rec u r ->
  snd (shr r e n) = e + n /\ 0 <= shr_m (fst (shr r e n)) /\
  inb_rec (u * bpow (- n)) (fst (shr r e n)).
Proof.
  intros Hm Hn H. destruct n as [|p|p]; simpl; try lia.
  - rewrite Z.add_0_r, Rmult_1_r. auto.
  - destruct (iter_shr_1_spec p u r Hm H). auto.
Qed.

Lemma nonpos_nonneg_le a b : nonpos a -> nonneg b -> SFleb a b = true.
Proof. destruct a as [[|]|[|]| |[|] ? ?], b as [[|]|[|]| |[|] ? ?]; simpl; tauto. Qed.

Lemma iter_xO_Z m d : Zpos (Pos.iter xO m d) = Zpos m * 2 ^ Zpos d.
Proof.
  induction d as [|d IH] using Pos.peano_ind.
  - simpl. lia.
  - rewrite Pos.iter_succ, Pos2Z.inj_xO, IH, Pos2Z.inj_succ, Z.pow_succ_r by lia. ring.
Qed.

Lemma iter_xO_digits m d :
  Zpos (digits2_pos (Pos.iter xO m d)) = Zpos (digits2_pos m) + Zpos d.
Proof.
  induction d as [|d IH] using Pos.peano_ind.
  - simpl. lia.
  - rewrite Pos.iter_succ. cbn [digits2_pos]. rewrite Pos2Z.inj_succ, IH. lia.
Qed.

Lemma shl_align_spec mx ex ex' :
  let r := shl_align mx ex ex' in
  snd r = Z.min ex ex' /\
  Zpos (fst r) = Zpos mx * 2 ^ (ex - snd r) /\
  Zpos (digits2_pos (fst r)) + snd r = Zpos (digits2_pos mx) + ex.
Proof.
  unfold shl_align. destruct (ex' - ex) as [|d|d] eqn:E; cbn [fst snd].
  - split; [lia|]. rewrite Z.sub_diag. split; lia.
  - split; [lia|]. rewrite Z.sub_diag. split; lia.
  - split; [lia|]. rewrite iter_xO_Z, iter_xO_digits.
    replace (ex - ex') with (Zpos d) by lia. split; lia.
Qed.

Lemma shl_align_value mx ex ex' :
  (IZR (Zpos (fst (shl_align mx ex ex'))) * bpow (snd (shl_align mx ex ex'))
   = IZR (Zpos mx) * bpow ex)%R.
Proof.
  destruct (shl_align_spec mx ex ex') as (Hs & Hm & _).
  set (r := shl_align mx ex ex') in *.
  rewrite Hm, mult_IZR, <- bpow_Z by lia.
  rewrite Rmult_assoc, <- bpow_add. do 2 f_equal. lia.
Qed.

Section Format.

Variables prec emax : Z.
Hypothesis Hprec : 0 < prec.

Local Abbreviation canon := (Round.canon prec emax).
Local Abbreviation semi_canon := (Round.semi_canon prec emax).
Local Abbreviation normal_form := (Round.normal_form prec emax).
Local Abbreviation pack := (Round.pack prec emax).
Local Abbreviation mk := (Round.mk prec emax).
Local Abbreviation rounds := (Round.rounds prec emax).
Local Abbreviation wf := (Round.wf prec emax).

Lemma binary_round_aux_pack s m e l :
  binary_round_aux prec emax s m e l =
  pack s (rne (shr_m (fst (shr_fexp prec emax m e l)))
             (loc_of_shr_record (fst (shr_fexp prec emax m e l))))
         (snd (shr_fexp prec emax m e l)).
Proof.
  unfold binary_round_aux, Round.pack, Round.rne.
  destruct (shr_fexp prec emax m e l) as [mrs' e']. reflexivity.
Qed.

Lemma pow2_prec_pos : 0 < 2 ^ (prec - 1).
Proof. apply Z.pow_pos_nonneg; lia. Qed.

Lemma pow2_prec_split : 2 ^ prec = 2 * 2 ^ (prec - 1).
Proof. rewrite <- Z.pow_succ_r by lia. f_equal. lia. Qed.

Lemma IZR_lt_bpow m k : 0 <= k -> (IZR m < bpow k)%R -> m < 2 ^ k.
Proof. intros Hk H. rewrite bpow_Z in H by assumption. now apply lt_IZR. Qed.

Lemma bpow_le_IZR m k : 0 <= k -> (bpow k < IZR m + 1)%R -> 2 ^ k <= m.
Proof.
  intros Hk H. rewrite bpow_Z in H by assumption.
  rewrite <- plus_IZR in H. apply lt_IZR in H. lia.
Qed.

Lemma succ_le_bpow m k : 0 <= k -> m + 1 <= 2 ^ k -> (IZR m + 1 <= bpow k)%R.
Proof.
  intros Hk H. rewrite bpow_Z by assumption. apply IZR_le in H.
  now rewrite plus_IZR in H.
Qed.

Lemma bpow_le_of_Z m k : 0 <= k -> 2 ^ k <= m -> (bpow k <= IZR m)%R.
Proof. intros Hk H. rewrite bpow_Z by assumption. now apply IZR_le. Qed.

Lemma located_bounds x m e l :
  located x m e l -> (IZR m <= x * bpow (- e) < IZR m + 1)%R.
Proof. apply inb_bounds. Qed.

Lemma shr_fexp_normal x m e l :
  0 <= m -> e <= fexp prec emax (Zdigits2 m + e) -> located x m e l ->
  normal_form x (shr_m (fst (shr_fexp prec emax m e l)))
                (snd (shr_fexp prec emax m e l))
                (loc_of_shr_record (fst (shr_fexp prec emax m e l))).
Proof.
  intros Hm Hpre Hloc. unfold shr_fexp.
  set (d := Zdigits2 m) in *. set (e1 := fexp prec emax (d + e)) in *.
  set (r := shr_record_of_loc m l).
  assert (Hr : inb_rec (x * bpow (- e)) r).
  { unfold Round.inb_rec, r. now rewrite shr_m_shr_record_of_loc, loc_of_shr_record_of_loc. }
  assert (Hr0 : 0 <= shr_m r) by (unfold r; now rewrite shr_m_shr_record_of_loc).
  destruct (shr_spec r e (e1 - e) _ Hr0 ltac:(lia) Hr) as (He & Hm1 & Hin).
  set (res := shr r e (e1 - e)) in *.
  replace (snd res) with e1 in * by lia. clear He.
  assert (Hu : (x * bpow (- e) * bpow (- (e1 - e)) = x * bpow (- e1))%R).
  { rewrite Rmult_assoc, <- bpow_add. do 2 f_equal. lia. }
  rewrite Hu in Hin.
  split; [exact Hin|].
  pose proof (inb_bounds _ _ _ Hin) as Hb1.
  pose proof (located_bounds _ _ _ _ Hloc) as Hb.
  assert (Hd0 : 0 <= d) by apply Zdigits2_nonneg.
  assert (Hmd : m + 1 <= 2 ^ d).
  { destruct (Z.eq_dec m 0) as [->|]; [simpl; lia|].
    pose proof (Zdigits2_bounds m ltac:(lia)). fold d in H. lia. }
  assert (He1 : emin prec emax <= e1 /\ d + e - prec <= e1) by (unfold e1, fexp; lia).
  pose proof (bpow_pos (- (e1 - e))) as Hp.
  rewrite <- Hu in Hb1.
  split; [lia|split; [split; [assumption|]|]].
  - apply IZR_lt_bpow; [lia|].
    assert ((x * bpow (- e) < bpow d)%R).
    { pose proof (succ_le_bpow m d Hd0 Hmd). lra. }
    assert ((bpow d * bpow (- (e1 - e)) <= bpow prec)%R).
    { rewrite <- bpow_add. apply bpow_le. lia. }
    nra.
  - destruct (Z.eq_dec e1 (emin prec emax)) as [|Hne]; [now left|right].
    assert (He1' : e1 = d + e - prec) by (unfold e1, fexp in *; lia).
    assert (Hmpos : 0 < m).
    { destruct (Z.eq_dec m 0) as [E|]; [|lia]. subst m. unfold d in *. simpl in *. lia. }
    pose proof (Zdigits2_bounds m Hmpos) as Hdm. fold d in Hdm.
    pose proof (Zdigits2_pos m Hmpos) as Hdp. fold d in Hdp.
    apply bpow_le_IZR; [lia|].
    assert ((bpow (d - 1) <= x * bpow (- e))%R).
    { pose proof (bpow_le_of_Z m (d - 1) ltac:(lia) (proj1 Hdm)). lra. }
    assert ((bpow (d - 1) * bpow (- (e1 - e)) = bpow (prec - 1))%R).
    { rewrite <- bpow_add. f_equal. lia. }
    nra.
Qed.

Lemma fexp_canon m e : canon m e -> fexp prec emax (Zdigits2 m + e) = e.
Proof.
  intros (He & [Hm0 Hm] & Hc). unfold fexp.
  assert (Hd : Zdigits2 m <= prec) by (apply Zdigits2_le_of_lt; lia).
  destruct Hc as [->|Hc]; [lia|].
  pose proof (Zdigits2_ge_of_le m (prec - 1) ltac:(lia) Hc). lia.
Qed.

Lemma pack_canon s m e : canon m e -> pack s m e = mk s m e.
Proof.
  intros Hc. unfold Round.pack, shr_fexp. rewrite (fexp_canon m e Hc), Z.sub_diag.
  reflexivity.
Qed.

Lemma pack_spec s n e :
  semi_canon n e ->
  exists m3 e3, canon m3 e3 /\
    (IZR m3 * bpow e3 = IZR n * bpow e)%R /\ pack s n e = mk s m3 e3.
Proof.
  intros (He & [Hn0 Hn] & Hc).
  destruct (Z.eq_dec n (2 ^ prec)) as [E|Hne].
  - exists (2 ^ (prec - 1)), (e + 1).
    pose proof pow2_prec_pos as Hpp. pose proof pow2_prec_split as Hps.
    assert (Hcan : canon (2 ^ (prec - 1)) (e + 1)).
    { split; [lia|]. split; [lia|]. now right. }
    split; [exact Hcan|]. split.
    + rewrite E, Hps, mult_IZR, bpow_add, bpow_1. ring.
    + rewrite <- (pack_canon s _ _ Hcan). unfold Round.pack, shr_fexp.
      rewrite (fexp_canon _ _ Hcan).
      assert (Hd : Zdigits2 n = prec + 1).
      { pose proof (Zdigits2_ge_of_le n prec ltac:(lia) ltac:(lia)).
        assert (H2 : 2 ^ (prec + 1) = 2 * 2 ^ prec) by (apply Z.pow_succ_r; lia).
        pose proof (Zdigits2_le_of_lt n (prec + 1) ltac:(lia) ltac:(lia) ltac:(lia)).
        lia. }
      rewrite Hd. unfold fexp.
      replace (Z.max (prec + 1 + e - prec) (emin prec emax) - e) with 1 by lia.
      rewrite Z.sub_diag. cbn [shr iter_pos shr_record_of_loc fst snd].
      replace (e + 1) with (e + 1) by reflexivity.
      assert (Hm : shr_m (shr_1 {| shr_m := n; shr_r := false; shr_s := false |})
                   = 2 ^ (prec - 1)).
      { rewrite E, Hps. destruct (2 ^ (prec - 1)) as [|q|q]; try lia. reflexivity. }
      rewrite Hm. reflexivity.
  - exists n, e.
    assert (Hcan : canon n e) by (split; [lia|split; [lia|assumption]]).
    split; [exact Hcan|]. split; [reflexivity|]. now apply pack_canon.
Qed.

Lemma canon_lt m1 e1 m2 e2 :
  canon m1 e1 -> canon m2 e2 -> 0 < m2 -> e1 < e2 ->
  (IZR m1 * bpow e1 < IZR m2 * bpow e2)%R.
Proof.
  intros (He1 & [Hm10 Hm1] & Hc1) (He2 & [Hm20 Hm2] & Hc2) Hpos Hlt.
  destruct Hc2 as [->|Hc2]; [lia|].
  pose proof (bpow_le_of_Z m2 (prec - 1) ltac:(lia) Hc2) as H2.
  pose proof (succ_le_bpow m1 prec ltac:(lia) ltac:(lia)) as H1.
  pose proof (bpow_pos e1) as P1. pose proof (bpow_pos e2) as P2.
  assert (H3 : (bpow prec * bpow e1 <= bpow (prec - 1) * bpow e2)%R).
  { rewrite <- !bpow_add. apply bpow_le. lia. }
  nra.
Qed.

Lemma canon_lex m1 e1 m2 e2 :
  canon m1 e1 -> canon m2 e2 -> 0 < m1 ->
  (IZR m1 * bpow e1 <= IZR m2 * bpow e2)%R ->
  0 < m2 /\ (e1 < e2 \/ (e1 = e2 /\ m1 <= m2)).
Proof.
  intros C1 C2 Hpos Hle.
  pose proof (bpow_pos e1) as P1. pose proof (bpow_pos e2) as P2.
  assert (Hm2 : 0 < m2).
  { destruct (Z_lt_le_dec 0 m2) as [|Hn]; [assumption|].
    apply IZR_le in Hn. apply IZR_lt in Hpos. nra. }
  split; [assumption|].
  destruct (Z.lt_trichotomy e1 e2) as [H|[H|H]]; [now left| |].
  - right. split; [assumption|]. subst e2.
    destruct (Z_le_gt_dec m1 m2) as [|Hgt]; [assumption|].
    apply Z.gt_lt, IZR_lt in Hgt. nra.
  - pose proof (canon_lt _ _ _ _ C2 C1 Hpos H). lra.
Qed.

Lemma mk_le_pos m1 e1 m2 e2 :
  canon m1 e1 -> canon m2 e2 ->
  (IZR m1 * bpow e1 <= IZR m2 * bpow e2)%R ->
  SFleb (mk false m1 e1) (mk false m2 e2) = true.
Proof.
  intros C1 C2 Hle.
  destruct (Z.eq_dec m1 0) as [->|Hne].
  - destruct C2 as (_ & [H0 _] & _). unfold Round.mk.
    destruct m2 as [|q|q]; [reflexivity| |lia].
    now destruct (e2 <=? emax - prec).
  - assert (Hpos : 0 < m1) by (destruct C1 as (_ & [? _] & _); lia).
    destruct (canon_lex _ _ _ _ C1 C2 Hpos Hle) as [Hm2 Hlex].
    destruct m1 as [|q1|q1]; try lia. destruct m2 as [|q2|q2]; try lia.
    unfold Round.mk.
    destruct (Z.leb_spec e1 (emax - prec)), (Z.leb_spec e2 (emax - prec));
      try reflexivity; try lia.
    unfold SFleb, SFcompare. destruct Hlex as [Hlt|[-> Hm]].
    + apply Z.compare_lt_iff in Hlt. now rewrite Hlt.
    + rewrite Z.compare_refl. change (Pos.compare_cont Eq q1 q2) with (Pos.compare q1 q2).
      destruct (Pos.compare_spec q1 q2); try reflexivity. lia.
Qed.

Lemma mk_le_neg m1 e1 m2 e2 :
  canon m1 e1 -> canon m2 e2 ->
  (IZR m1 * bpow e1 <= IZR m2 * bpow e2)%R ->
  SFleb (mk true m2 e2) (mk true m1 e1) = true.
Proof.
  intros C1 C2 Hle.
  destruct (Z.eq_dec m1 0) as [->|Hne].
  - destruct C2 as (_ & [H0 _] & _). unfold Round.mk.
    destruct m2 as [|q|q]; [reflexivity| |lia].
    now destruct (e2 <=? emax - prec).
  - assert (Hpos : 0 < m1) by (destruct C1 as (_ & [? _] & _); lia).
    destruct (canon_lex _ _ _ _ C1 C2 Hpos Hle) as [Hm2 Hlex].
    destruct m1 as [|q1|q1]; try lia. destruct m2 as [|q2|q2]; try lia.
    unfold Round.mk.
    destruct (Z.leb_spec e1 (emax - prec)), (Z.leb_spec e2 (emax - prec));
      try reflexivity; try lia.
    unfold SFleb, SFcompare. destruct Hlex as [Hlt|[-> Hm]].
    + apply Z.compare_gt_iff in Hlt. now rewrite Hlt.
    + rewrite Z.compare_refl. change (Pos.compare_cont Eq q2 q1) with (Pos.compare q2 q1).
      destruct (Pos.compare_spec q2 q1); try reflexivity. lia.
Qed.

Lemma rne_bounds m l : m <= rne m l <= m + 1.
Proof. unfold Round.rne, round_nearest_even. destruct l as [|[| |]]; try lia. destruct (Z.even m); lia. Qed.

Lemma rne_semi_canon m e l : canon m e -> semi_canon (rne m l) e.
Proof.
  intros (He & [Hm0 Hm] & Hc). pose proof (rne_bounds m l).
  split; [assumption|]. split; [lia|]. destruct Hc; [now left|right; lia].
Qed.

Lemma rne_same_exp u v m l n k :
  inb u m l -> inb v n k -> (u <= v)%R -> rne m l <= rne n k.
Proof.
  intros Hu Hv Huv.
  pose proof (inb_bounds _ _ _ Hu) as Bu. pose proof (inb_bounds _ _ _ Hv) as Bv.
  pose proof (rne_bounds m l). pose proof (rne_bounds n k).
  destruct (Z.lt_trichotomy m n) as [Hlt|[->|Hgt]]; [lia| |].
  - unfold Round.rne, round_nearest_even.
    destruct l as [|[| |]], k as [|[| |]]; simpl in Hu, Hv;
      try lia; try lra; destruct (Z.even n); lia || lra.
  - assert (Hle : n + 1 <= m) by lia. apply IZR_le in Hle.
    rewrite plus_IZR in Hle. lra.
Qed.

Lemma rne_mono x y m1 e1 l1 n1 f1 k1 :
  normal_form x m1 e1 l1 -> normal_form y n1 f1 k1 -> (x <= y)%R ->
  (IZR (rne m1 l1) * bpow e1 <= IZR (rne n1 k1) * bpow f1)%R.
Proof.
  intros [Lx Cx] [Ly Cy] Hxy.
  pose proof (located_bounds _ _ _ _ Lx) as Bx.
  pose proof (located_bounds _ _ _ _ Ly) as By.
  pose proof (rne_bounds m1 l1) as R1. pose proof (rne_bounds n1 k1) as R2.
  pose proof (bpow_pos e1) as P1. pose proof (bpow_pos f1) as P2.
  pose proof (bpow_pos (- e1)) as Q1. pose proof (bpow_pos (- f1)) as Q2.
  pose proof (bpow_opp_r e1) as I1. pose proof (bpow_opp_r f1) as I2.
  destruct Cx as (He1 & [Hm0 Hm] & Hc1). destruct Cy as (Hf1 & [Hn0 Hn] & Hc2).
  destruct (Z.lt_trichotomy e1 f1) as [Hlt|[<-|Hgt]].
  - destruct Hc2 as [->|Hc2]; [lia|].
    assert (A : (IZR (rne m1 l1) <= bpow prec)%R).
    { pose proof (succ_le_bpow m1 prec ltac:(lia) ltac:(lia)).
      destruct R1 as [_ R1]. apply IZR_le in R1. rewrite plus_IZR in R1. lra. }
    assert (B : (bpow (prec - 1) <= IZR (rne n1 k1))%R).
    { pose proof (bpow_le_of_Z n1 (prec - 1) ltac:(lia) Hc2).
      destruct R2 as [R2 _]. apply IZR_le in R2. lra. }
    assert (C : (bpow prec * bpow e1 <= bpow (prec - 1) * bpow f1)%R).
    { rewrite <- !bpow_add. apply bpow_le. lia. }
    pose proof (bpow_pos prec). pose proof (bpow_pos (prec - 1)). nra.
  - assert (Huv : (x * bpow (- e1) <= y * bpow (- e1))%R) by nra.
    pose proof (rne_same_exp _ _ _ _ _ _ Lx Ly Huv) as Hz. apply IZR_le in Hz. nra.
  - exfalso. destruct Hc1 as [->|Hc1]; [lia|].
    pose proof (bpow_le_of_Z m1 (prec - 1) ltac:(lia) Hc1) as A.
    pose proof (succ_le_bpow n1 prec ltac:(lia) ltac:(lia)) as B.
    assert (C : (bpow prec * bpow f1 <= bpow (prec - 1) * bpow e1)%R).
    { rewrite <- !bpow_add. apply bpow_le. lia. }
    assert (X : (bpow (prec - 1) * bpow e1 <= x)%R).
    { replace x with (x * bpow (- e1) * bpow e1)%R by (rewrite Rmult_assoc, (Rmult_comm (bpow (- e1))), I1; ring). nra. }
    assert (Y : (y < bpow prec * bpow f1)%R).
    { replace y with (y * bpow (- f1) * bpow f1)%R by (rewrite Rmult_assoc, (Rmult_comm (bpow (- f1))), I2; ring). nra. }
    lra.
Qed.

Lemma mk_wf s m e : canon m e -> wf (mk s m e).
Proof.
  intros C. unfold Round.mk. destruct m as [|q|q]; [exact I| |destruct C as (_ & [? _] & _); lia].
  destruct (Z.leb_spec e (emax - prec)); simpl; auto.
Qed.

Lemma mk_sign (s : bool) m e : canon m e -> if s then nonpos (mk s m e) else nonneg (mk s m e).
Proof.
  intros C. unfold Round.mk. destruct m as [|q|q]; [now destruct s| |destruct C as (_ & [? _] & _); lia].
  destruct (e <=? emax - prec), s; exact I.
Qed.

Lemma mk_zero s e : mk s 0 e = S754_zero s.
Proof. reflexivity. Qed.

Lemma located_zero m e l : located 0 m e l -> 0 <= m -> rne m l = 0.
Proof.
  unfold Round.located. rewrite Rmult_0_l. intros H Hm. apply IZR_le in Hm.
  destruct l as [|[| |]]; simpl in H; try lra.
  symmetry in H. apply eq_IZR in H. subst m. reflexivity.
Qed.

Lemma rounds_pack x f :
  rounds x f ->
  exists s m e l m3 e3, normal_form (Rabs x) m e l /\
    ((x < 0)%R -> s = true) /\ ((0 < x)%R -> s = false) /\
    canon m3 e3 /\ (IZR m3 * bpow e3 = IZR (rne m l) * bpow e)%R /\
    f = mk s m3 e3.
Proof.
  intros (s & m & e & l & NF & S1 & S2 & ->).
  destruct (pack_spec s (rne m l) e (rne_semi_canon m e l (proj2 NF)))
    as (m3 & e3 & C & V & E).
  exists s, m, e, l, m3, e3. auto 10.
Qed.

Lemma rounds_wf x f : rounds x f -> wf f.
Proof.
  intros H. destruct (rounds_pack x f H) as (s & m & e & l & m3 & e3 & _ & _ & _ & C & _ & ->).
  now apply mk_wf.
Qed.

Lemma rounds_nonpos x f : rounds x f -> (x <= 0)%R -> nonpos f.
Proof.
  intros H Hx.
  destruct (rounds_pack x f H) as (s & m & e & l & m3 & e3 & NF & S1 & _ & C & V & ->).
  destruct s; [exact (mk_sign true m3 e3 C)|].
  assert (x = 0%R) as ->.
  { destruct (Rle_lt_or_eq_dec _ _ Hx) as [Hlt|]; [|assumption]. now specialize (S1 Hlt). }
  rewrite Rabs_R0 in NF. destruct NF as [L (_ & [Hm _] & _)].
  rewrite (located_zero m e l L Hm), Rmult_0_l in V.
  pose proof (bpow_pos e3). assert (IZR m3 = 0%R) by nra.
  apply eq_IZR in H1. subst m3. exact I.
Qed.

Lemma rounds_nonneg x f : rounds x f -> (0 <= x)%R -> nonneg f.
Proof.
  intros H Hx.
  destruct (rounds_pack x f H) as (s & m & e & l & m3 & e3 & NF & _ & S2 & C & V & ->).
  destruct s; [|exact (mk_sign false m3 e3 C)].
  assert (x = 0%R) as ->.
  { destruct (Rle_lt_or_eq_dec _ _ Hx) as [Hlt|]; [|auto]. now specialize (S2 Hlt). }
  rewrite Rabs_R0 in NF. destruct NF as [L (_ & [Hm _] & _)].
  rewrite (located_zero m e l L Hm), Rmult_0_l in V.
  pose proof (bpow_pos e3). assert (IZR m3 = 0%R) by nra.
  apply eq_IZR in H1. subst m3. exact I.
Qed.

Theorem rounds_le x y f g :
  rounds x f -> rounds y g -> (x <= y)%R -> SFleb f g = true.
Proof.
  intros Hf Hg Hxy.
  destruct (Rlt_le_dec y 0) as [Hy|Hy].
  - destruct (rounds_pack x f Hf) as (s1 & m1 & e1 & l1 & a1 & b1 & NF1 & S1 & _ & C1 & V1 & ->).
    destruct (rounds_pack y g Hg) as (s2 & m2 & e2 & l2 & a2 & b2 & NF2 & S2 & _ & C2 & V2 & ->).
    rewrite (S1 ltac:(lra)), (S2 Hy).
    apply mk_le_neg; try assumption. rewrite V1, V2.
    apply (rne_mono _ _ _ _ _ _ _ _ NF2 NF1).
    rewrite !Rabs_left by lra. lra.
  - destruct (Rlt_le_dec 0 x) as [Hx|Hx].
    + destruct (rounds_pack x f Hf) as (s1 & m1 & e1 & l1 & a1 & b1 & NF1 & _ & S1 & C1 & V1 & ->).
      destruct (rounds_pack y g Hg) as (s2 & m2 & e2 & l2 & a2 & b2 & NF2 & _ & S2 & C2 & V2 & ->).
      rewrite (S1 Hx), (S2 ltac:(lra)).
      apply mk_le_pos; try assumption. rewrite V1, V2.
      apply (rne_mono _ _ _ _ _ _ _ _ NF1 NF2).
      rewrite !Rabs_pos_eq by lra. lra.
    + apply nonpos_nonneg_le; [eapply rounds_nonpos|eapply rounds_nonneg]; eassumption.
Qed.

Lemma binary_round_aux_rounds x s m e l :
  0 <= m -> e <= fexp prec emax (Zdigits2 m + e) -> located (Rabs x) m e l ->
  ((x < 0)%R -> s = true) -> ((0 < x)%R -> s = false) ->
  rounds x (binary_round_aux prec emax s m e l).
Proof.
  intros Hm Hpre Hloc S1 S2. rewrite binary_round_aux_pack.
  exists s, (shr_m (fst (shr_fexp prec emax m e l))),
    (snd (shr_fexp prec emax m e l)),
    (loc_of_shr_record (fst (shr_fexp prec emax m e l))).
  split; [apply shr_fexp_normal; assumption|]. auto.
Qed.

Lemma rounds_zero s : rounds 0 (S754_zero s).
Proof.
  assert (C : canon 0 (emin prec emax)).
  { split; [lia|]. split; [|now left]. pose proof pow2_prec_pos. pose proof pow2_prec_split. lia. }
  exists s, 0, (emin prec emax), loc_Exact. split; [split; [|exact C]|].
  - unfold Round.located. rewrite Rabs_R0, Rmult_0_l. reflexivity.
  - split; [lra|]. split; [lra|]. cbn [rne round_nearest_even]. now rewrite pack_canon.
Qed.

Lemma B2R_abs s m e : Rabs (B2R (S754_finite s m e)) = (IZR (Zpos m) * bpow e)%R.
Proof.
  pose proof (bpow_pos e). assert (0 < IZR (Zpos m))%R by (apply IZR_lt; lia).
  simpl. destruct s; [rewrite Rabs_left|rewrite Rabs_pos_eq]; nra.
Qed.

Lemma B2R_sign s m e :
  ((B2R (S754_finite s m e) < 0)%R -> s = true) /\
  ((0 < B2R (S754_finite s m e))%R -> s = false).
Proof.
  pose proof (bpow_pos e). assert (0 < IZR (Zpos m))%R by (apply IZR_lt; lia).
  simpl. destruct s; split; intros; auto; nra.
Qed.

Lemma wf_rounds f : wf f -> finz f -> rounds (B2R f) f.
Proof.
  destruct f as [s|s| |s m e]; simpl finz; try tauto; intros W _.
  - apply rounds_zero.
  - destruct W as [C He]. destruct (B2R_sign s m e) as [S1 S2].
    exists s, (Zpos m), e, loc_Exact. split; [split; [|exact C]|].
    + unfold Round.located. rewrite B2R_abs, Rmult_assoc, bpow_opp_r, Rmult_1_r. reflexivity.
    + split; [exact S1|]. split; [exact S2|]. cbn [rne round_nearest_even].
      rewrite pack_canon by assumption. unfold Round.mk.
      destruct (Z.leb_spec e (emax - prec)); [reflexivity|lia].
Qed.

Lemma SFleb_B2R a b :
  wf a -> wf b -> finz a -> finz b -> SFleb a b = true -> (B2R a <= B2R b)%R.
Proof.
  destruct a as [sa|sa| |sa ma ea], b as [sb|sb| |sb mb eb]; simpl finz; try tauto;
    intros Wa Wb _ _.
  - simpl. lra.
  - pose proof (bpow_pos eb). assert (0 < IZR (Zpos mb))%R by (apply IZR_lt; lia).
    destruct sb; simpl; [discriminate|intros _; nra].
  - pose proof (bpow_pos ea). assert (0 < IZR (Zpos ma))%R by (apply IZR_lt; lia).
    destruct sa; simpl; [intros _; nra|discriminate].
  - destruct Wa as [Ca _], Wb as [Cb _].
    pose proof (bpow_pos ea). assert (0 < IZR (Zpos ma))%R by (apply IZR_lt; lia).
    pose proof (bpow_pos eb). assert (0 < IZR (Zpos mb))%R by (apply IZR_lt; lia).
    unfold SFleb, SFcompare.
    change (Pos.compare_cont Eq ma mb) with (Pos.compare ma mb).
    destruct sa, sb; cbn [B2R]; try discriminate; try (intros _; nra).
    + destruct (Z.compare_spec ea eb) as [->|Hlt|Hgt]; try discriminate.
      * destruct (Pos.compare_spec ma mb) as [->|Hm|Hm]; cbn [CompOpp]; try discriminate; intros _; [lra|].
        assert (IZR (Zpos mb) < IZR (Zpos ma))%R by (apply IZR_lt; lia). nra.
      * intros _. pose proof (canon_lt _ _ _ _ Cb Ca ltac:(lia) Hgt). lra.
    + destruct (Z.compare_spec ea eb) as [->|Hlt|Hgt]; try discriminate.
      * destruct (Pos.compare_spec ma mb) as [->|Hm|Hm]; try discriminate; intros _; [lra|].
        assert (IZR (Zpos ma) < IZR (Zpos mb))%R by (apply IZR_lt; lia). nra.
      * intros _. pose proof (canon_lt _ _ _ _ Ca Cb ltac:(lia) Hlt). lra.
Qed.

Lemma fexp_mono a b : a <= b -> fexp prec emax a <= fexp prec emax b.
Proof. unfold fexp. lia. Qed.

Lemma binary_round_rounds s mx ex :
  rounds (B2R (S754_finite s mx ex)) (binary_round prec emax s mx ex).
Proof.
  unfold binary_round.
  set (ex' := fexp prec emax (Zpos (digits2_pos mx) + ex)).
  destruct (shl_align_spec mx ex ex') as (Hs & Hm & Hd).
  pose proof (shl_align_value mx ex ex') as Hv.
  destruct (shl_align mx ex ex') as [mz ez]. cbn [fst snd] in *.
  destruct (B2R_sign s mx ex) as [S1 S2].
  apply binary_round_aux_rounds; try assumption; [lia| |].
  - cbn [Zdigits2]. rewrite Hd. fold ex'. lia.
  - unfold Round.located. rewrite B2R_abs, <- Hv, Rmult_assoc, bpow_opp_r, Rmult_1_r. reflexivity.
Qed.

Lemma binary_normalize_rounds z e sz :
  rounds (IZR z * bpow e) (binary_normalize prec emax z e sz).
Proof.
  destruct z as [|p|p]; cbn [binary_normalize].
  - rewrite Rmult_0_l. now apply rounds_zero.
  - apply (binary_round_rounds false p e).
  - replace (IZR (Zneg p) * bpow e)%R with (B2R (S754_finite true p e)).
    + apply binary_round_rounds.
    + cbn [B2R]. change (Zneg p) with (- Zpos p). now rewrite opp_IZR.
Qed.

Lemma scaled_lt t a c D : (0 < D)%R -> (t * D = a)%R -> (a < c * D)%R -> (t < c)%R.
Proof. intros HD <- H. now apply Rmult_lt_reg_r in H. Qed.

Lemma scaled_gt t a c D : (0 < D)%R -> (t * D = a)%R -> (c * D < a)%R -> (c < t)%R.
Proof. intros HD <- H. now apply Rmult_lt_reg_r in H. Qed.

Lemma scaled_eq t a c D : (0 < D)%R -> (t * D = a)%R -> (a = c * D)%R -> (t = c)%R.
Proof. intros HD <- H. apply Rmult_eq_reg_r in H; [assumption|lra]. Qed.

Lemma new_location_spec m2 r q :
  0 < m2 -> 0 <= r < m2 ->
  inb (IZR q + IZR r / IZR m2) q (new_location m2 r).
Proof.
  intros Hm2 Hr.
  assert (HD : (0 < IZR m2)%R) by (now apply IZR_lt).
  set (t := (IZR r / IZR m2)%R).
  assert (Ht : (t * IZR m2 = IZR r)%R) by (unfold t; field; lra).
  assert (Hr0 : (0 <= IZR r)%R) by (apply IZR_le; lia).
  assert (Hr1 : (IZR r < IZR m2)%R) by (apply IZR_lt; lia).
  assert (Ht1 : (t < 1)%R) by (apply (scaled_lt t (IZR r) 1 (IZR m2)); lra).
  assert (Hz : r = 0 -> (IZR q + t = IZR q)%R).
  { intros ->. assert (t = 0%R) as -> by (apply (scaled_eq t 0 0 (IZR m2)); lra). lra. }
  assert (Htp : r <> 0 -> (0 < t)%R).
  { intros Hne. assert (Hr2 : (1 <= IZR r)%R) by (apply IZR_le; lia).
    apply (scaled_gt t (IZR r) 0 (IZR m2)); lra. }
  unfold new_location. destruct (Z.even m2) eqn:Ev.
  - unfold new_location_even. destruct (Z.eqb_spec r 0) as [E0|Hne]; [exact (Hz E0)|].
    specialize (Htp Hne).
    destruct (Z.compare_spec (2 * r) m2) as [E|E|E]; cbn [inb].
    + apply (f_equal IZR) in E. rewrite mult_IZR in E.
      assert (t = / 2)%R by (apply (scaled_eq t (IZR r) (/ 2) (IZR m2)); lra). lra.
    + apply IZR_lt in E. rewrite mult_IZR in E.
      assert (t < / 2)%R by (apply (scaled_lt t (IZR r) (/ 2) (IZR m2)); lra). lra.
    + apply IZR_lt in E. rewrite mult_IZR in E.
      assert (/ 2 < t)%R by (apply (scaled_gt t (IZR r) (/ 2) (IZR m2)); lra). lra.
  - unfold new_location_odd. destruct (Z.eqb_spec r 0) as [E0|Hne]; [exact (Hz E0)|].
    specialize (Htp Hne).
    assert (Hodd : 2 * r <> m2).
    { intros E. rewrite <- E, Z.even_mul in Ev. discriminate. }
    destruct (Z.compare_spec (2 * r + 1) m2) as [E|E|E]; cbn [inb].
    + assert (E' : 2 * r < m2) by lia. apply IZR_lt in E'. rewrite mult_IZR in E'.
      assert (t < / 2)%R by (apply (scaled_lt t (IZR r) (/ 2) (IZR m2)); lra). lra.
    + assert (E' : 2 * r < m2) by lia. apply IZR_lt in E'. rewrite mult_IZR in E'.
      assert (t < / 2)%R by (apply (scaled_lt t (IZR r) (/ 2) (IZR m2)); lra). lra.
    + assert (E' : m2 < 2 * r) by lia. apply IZR_lt in E'. rewrite mult_IZR in E'.
      assert (/ 2 < t)%R by (apply (scaled_gt t (IZR r) (/ 2) (IZR m2)); lra). lra.
Qed.

Lemma bpow_opp e : bpow (- e) = (/ bpow e)%R.
Proof.
  pose proof (bpow_pos e). pose proof (bpow_opp_r e).
  apply Rmult_eq_reg_l with (bpow e); [|lra]. rewrite H0. field. lra.
Qed.

Lemma SFdiv_core_binary_spec mx ex my ey :
  let c := SFdiv_core_binary prec emax (Zpos mx) ex (Zpos my) ey in
  0 <= fst (fst c) /\
  snd (fst c) <= fexp prec emax (Zdigits2 (fst (fst c)) + snd (fst c)) /\
  located (IZR (Zpos mx) * bpow ex / (IZR (Zpos my) * bpow ey))
          (fst (fst c)) (snd (fst c)) (snd c).
Proof.
  unfold SFdiv_core_binary.
  set (d1 := Zdigits2 (Zpos mx)). set (d2 := Zdigits2 (Zpos my)).
  set (e' := Z.min (fexp prec emax (d1 + ex - (d2 + ey))) (ex - ey)).
  set (s := ex - ey - e').
  assert (Hs : 0 <= s) by (unfold s, e'; lia).
  set (m' := match s with Zpos _ => Z.shiftl (Zpos mx) s | Z0 => Zpos mx | Zneg _ => 0 end).
  assert (Hm' : m' = Zpos mx * 2 ^ s).
  { unfold m'. destruct s as [|p|p] eqn:E; [lia| |lia].
    apply Z.shiftl_mul_pow2. lia. }
  pose proof (Z_div_mod m' (Zpos my) ltac:(lia)) as Hdiv.
  destruct (Z.div_eucl m' (Zpos my)) as [q r]. cbn [fst snd].
  destruct Hdiv as [Hqr Hr].
  assert (H2s : 0 < 2 ^ s) by (apply Z.pow_pos_nonneg; lia).
  assert (Hq : 0 <= q) by nia.
  split; [assumption|]. split.
  - apply Z.le_trans with (fexp prec emax (d1 + ex - (d2 + ey))); [unfold e'; lia|].
    apply fexp_mono.
    assert (Hd : d1 + s - d2 <= Zdigits2 q).
    { pose proof (Zdigits2_nonneg q).
      destruct (Z_le_gt_dec 0 (d1 - 1 + s - d2)) as [Ht|Ht]; [|lia].
      pose proof (Zdigits2_bounds (Zpos mx) ltac:(lia)) as B1. fold d1 in B1.
      pose proof (Zdigits2_bounds (Zpos my) ltac:(lia)) as B2. fold d2 in B2.
      pose proof (Zdigits2_pos (Zpos mx) ltac:(lia)) as P1. fold d1 in P1.
      pose proof (Zdigits2_pos (Zpos my) ltac:(lia)) as P2. fold d2 in P2.
      assert (Hpow : 2 ^ (d1 - 1) * 2 ^ s = 2 ^ (d1 - 1 + s - d2) * 2 ^ d2).
      { rewrite <- !Z.pow_add_r by lia. f_equal. lia. }
      assert (Hpt : 0 < 2 ^ (d1 - 1 + s - d2)) by (apply Z.pow_pos_nonneg; lia).
      assert (Hge : 2 ^ (d1 - 1 + s - d2) <= q) by nia.
      pose proof (Zdigits2_ge_of_le q _ Ht Hge). lia. }
    unfold s in Hd. lia.
  - unfold Round.located.
    replace (IZR (Zpos mx) * bpow ex / (IZR (Zpos my) * bpow ey) * bpow (- e'))%R
      with (IZR q + IZR r / IZR (Zpos my))%R.
    + apply new_location_spec; lia.
    + pose proof (bpow_pos ey). pose proof (bpow_pos e').
      assert (0 < IZR (Zpos my))%R by (apply IZR_lt; lia).
      replace ex with (s + ey + e') by (unfold s; lia).
      rewrite !bpow_add, bpow_opp, (bpow_Z s) by assumption.
      replace (IZR (Zpos mx) * (IZR (2 ^ s) * bpow ey * bpow e'))%R
        with (IZR m' * bpow ey * bpow e')%R by (rewrite Hm', mult_IZR; ring).
      rewrite Hqr, plus_IZR, mult_IZR. field. lra.
Qed.

Lemma SFdiv_rounds sx mx ex sy my ey :
  rounds (B2R (S754_finite sx mx ex) / B2R (S754_finite sy my ey))
         (SFdiv prec emax (S754_finite sx mx ex) (S754_finite sy my ey)).
Proof.
  cbn [SFdiv].
  pose proof (SFdiv_core_binary_spec mx ex my ey) as H.
  destruct (SFdiv_core_binary prec emax (Zpos mx) ex (Zpos my) ey) as [[mz ez] lz].
  cbn [fst snd] in H. destruct H as (Hq & Hpre & Hloc).
  pose proof (bpow_pos ex). pose proof (bpow_pos ey).
  assert (0 < IZR (Zpos mx))%R by (apply IZR_lt; lia).
  assert (0 < IZR (Zpos my))%R by (apply IZR_lt; lia).
  set (P := (IZR (Zpos mx) * bpow ex)%R) in *.
  set (Q := (IZR (Zpos my) * bpow ey)%R) in *.
  assert (HP : (0 < P)%R) by (unfold P; nra).
  assert (HQ : (0 < Q)%R) by (unfold Q; nra).
  assert (HPQ : (0 < P / Q)%R) by (apply Rdiv_lt_0_compat; assumption).
  assert (E : (B2R (S754_finite sx mx ex) / B2R (S754_finite sy my ey)
               = if xorb sx sy then - (P / Q) else P / Q)%R).
  { cbn [B2R]. fold P Q. destruct sx, sy; cbn [xorb]; unfold P, Q; field; nra. }
  rewrite E.
  apply binary_round_aux_rounds; try assumption.
  - destruct (xorb sx sy); [rewrite Rabs_left by lra; rewrite Ropp_involutive|rewrite Rabs_pos_eq by lra]; exact Hloc.
  - destruct (xorb sx sy); [reflexivity|intros; lra].
  - destruct (xorb sx sy); [intros; lra|reflexivity].
Qed.

Lemma SFsub_rounds sx mx ex sy my ey :
  rounds (B2R (S754_finite sx mx ex) - B2R (S754_finite sy my ey))
         (SFsub prec emax (S754_finite sx mx ex) (S754_finite sy my ey)).
Proof.
  cbn [SFsub]. set (ez := Z.min ex ey).
  pose proof (shl_align_value mx ex ez) as Vx.
  pose proof (shl_align_value my ey ez) as Vy.
  destruct (shl_align_spec mx ex ez) as (Sx & _).
  destruct (shl_align_spec my ey ez) as (Sy & _).
  replace (snd (shl_align mx ex ez)) with ez in Vx by (unfold ez in *; lia).
  replace (snd (shl_align my ey ez)) with ez in Vy by (unfold ez in *; lia).
  set (a := fst (shl_align mx ex ez)) in *. set (b := fst (shl_align my ey ez)) in *.
  match goal with |- Round.rounds _ _ ?x (binary_normalize _ _ ?z _ _) =>
    replace x with (IZR z * bpow ez)%R; [apply binary_normalize_rounds|] end.
  rewrite minus_IZR. cbn [B2R].
  destruct sx, sy; cbn [cond_Zopp]; rewrite ?opp_IZR; lra.
Qed.

End Format.

(** ** The IEEE order on the numbers of a format *)

Lemma SFcompare_antisym a b c :
  SFcompare a b = Some c -> SFcompare b a = Some (CompOpp c).
Proof.
  destruct a as [sa|sa| |sa ma ea], b as [sb|sb| |sb mb eb]; simpl;
    try discriminate; intros H; injection H as <-;
    try (destruct sa; reflexivity); try (destruct sb; reflexivity);
    try (destruct sa, sb; reflexivity).
  change (Pos.compare_cont Eq ma mb) with (Pos.compare ma mb).
  change (Pos.compare_cont Eq mb ma) with (Pos.compare mb ma).
  rewrite (Z.compare_antisym ea eb), (Pos.compare_antisym ma mb).
  destruct sa, sb; try reflexivity;
    destruct (ea ?= eb); try reflexivity; cbn [CompOpp];
    destruct (ma ?= mb)%positive; reflexivity.
Qed.

Lemma SFcompare_some a b :
  a <> S754_nan -> b <> S754_nan -> exists c, SFcompare a b = Some c.
Proof.
  destruct a as [sa|sa| |sa ma ea], b as [sb|sb| |sb mb eb]; simpl;
    intros Ha Hb; try congruence; eexists; reflexivity.
Qed.

Lemma SFleb_total a b :
  a <> S754_nan -> b <> S754_nan -> SFltb a b = false -> SFleb b a = true.
Proof.
  intros Ha Hb. destruct (SFcompare_some a b Ha Hb) as [c Hc].
  unfold SFltb, SFleb. rewrite (SFcompare_antisym a b c Hc), Hc.
  now destruct c.
Qed.

Lemma SFltb_SFleb a b : SFltb a b = true -> SFleb a b = true.
Proof. unfold SFltb, SFleb. destruct (SFcompare a b) as [[| |]|]; auto. Qed.

Lemma SFltb_not_SFleb a b : SFltb a b = true -> SFleb b a = true -> False.
Proof.
  unfold SFltb, SFleb. destruct (SFcompare a b) as [c|] eqn:Hc; [|discriminate].
  rewrite (SFcompare_antisym a b c Hc). now destruct c.
Qed.

Lemma SFleb_refl a : a <> S754_nan -> SFleb a a = true.
Proof.
  destruct a as [s|s| |s m e]; intros H; try congruence; unfold SFleb; simpl.
  - reflexivity.
  - now destruct s.
  - change (Pos.compare_cont Eq m m) with (Pos.compare m m).
    rewrite Z.compare_refl, Pos.compare_refl. now destruct s.
Qed.

Lemma neg_inf_le b : b <> S754_nan -> SFleb (S754_infinity true) b = true.
Proof. destruct b as [s|[|]| |s m e]; intros H; try congruence; reflexivity. Qed.

Lemma le_pos_inf a : a <> S754_nan -> SFleb a (S754_infinity false) = true.
Proof.
  destruct a as [s|[|]| |s m e]; intros H; try congruence; reflexivity.
Qed.

Lemma inf_le_inv s b :
  SFleb (S754_infinity s) b = true -> s = true \/ b = S754_infinity false.
Proof.
  destruct s; [now left|right].
  destruct b as [sb|[|]| |sb mb eb]; try discriminate; reflexivity.
Qed.

Lemma le_inf_inv a s :
  SFleb a (S754_infinity s) = true -> s = false \/ a = S754_infinity true.
Proof.
  destruct s; [right|now left].
  destruct a as [sa|[|]| |sa ma ea]; try discriminate; reflexivity.
Qed.

Section Order.

Variables prec emax : Z.
Hypothesis Hprec : 0 < prec.

Local Abbreviation wf := (Round.wf prec emax).
Local Abbreviation rounds := (Round.rounds prec emax).
Local Abbreviation ordered := (Round.ordered prec emax).

Lemma wf_not_nan f : wf f -> f <> S754_nan.
Proof. destruct f; simpl; intros H; try discriminate. tauto. Qed.

Lemma wf_cases f :
  wf f -> finz f \/ exists s, f = S754_infinity s.
Proof.
  destruct f as [s|s| |s m e]; simpl; intros H; try tauto. right; eauto.
Qed.

Lemma B2R_SFleb a b :
  wf a -> wf b -> finz a -> finz b -> (B2R a <= B2R b)%R -> SFleb a b = true.
Proof.
  intros Wa Wb Fa Fb H.
  exact (rounds_le prec emax Hprec _ _ _ _ (wf_rounds prec emax Hprec a Wa Fa)
           (wf_rounds prec emax Hprec b Wb Fb) H).
Qed.

Lemma SFleb_trans a b c :
  wf a -> wf b -> wf c -> SFleb a b = true -> SFleb b c = true ->
  SFleb a c = true.
Proof.
  intros Wa Wb Wc Hab Hbc.
  pose proof (wf_not_nan a Wa) as Na. pose proof (wf_not_nan c Wc) as Nc.
  destruct (wf_cases a Wa) as [Fa|[sa ->]].
  - destruct (wf_cases c Wc) as [Fc|[sc ->]].
    + destruct (wf_cases b Wb) as [Fb|[sb ->]].
      * apply B2R_SFleb; try assumption.
        pose proof (SFleb_B2R prec emax Hprec a b Wa Wb Fa Fb Hab).
        pose proof (SFleb_B2R prec emax Hprec b c Wb Wc Fb Fc Hbc). lra.
      * destruct (le_inf_inv _ _ Hab) as [->| ->]; [|destruct Fa].
        destruct (inf_le_inv _ _ Hbc) as [?| ->]; [discriminate|destruct Fc].
    + destruct (le_inf_inv _ _ Hbc) as [->| ->].
      * now apply le_pos_inf.
      * destruct (le_inf_inv _ _ Hab) as [?| ->]; [discriminate|destruct Fa].
  - destruct (inf_le_inv _ _ Hab) as [->| ->].
    + now apply neg_inf_le.
    + destruct (inf_le_inv _ _ Hbc) as [?| ->]; [discriminate|].
      destruct sa; reflexivity.
Qed.

Lemma rounds_ordered x y f g :
  rounds x f -> rounds y g -> (x <= y)%R -> ordered f g.
Proof.
  intros Hf Hg H. split; [|split].
  - exact (rounds_wf prec emax Hprec x f Hf).
  - exact (rounds_wf prec emax Hprec y g Hg).
  - exact (rounds_le prec emax Hprec x y f g Hf Hg H).
Qed.

Lemma valid_binary_wf f :
  valid_binary prec emax f = true -> f <> S754_nan -> wf f.
Proof.
  destruct f as [s|s| |s m e]; simpl; intros H N; try exact I; [congruence|].
  unfold bounded, canonical_mantissa in H.
  apply andb_prop in H. destruct H as [H1 H2].
  apply Z.eqb_eq in H1. apply Z.leb_le in H2. split; [|assumption].
  pose proof (digits2_pos_bounds m) as B. unfold fexp in H1.
  set (d := Zpos (digits2_pos m)) in *.
  assert (Hd : 0 < d) by (unfold d; lia).
  split; [lia|]. split.
  - split; [lia|].
    assert (2 ^ d <= 2 ^ prec) by (apply Z.pow_le_mono_r; lia). lia.
  - destruct (Z.eq_dec e (emin prec emax)) as [|Hne]; [now left|right].
    assert (d = prec) as <- by lia. lia.
Qed.

(** The clamping macros keep the order of their second argument. *)
Lemma FFMIN_ordered c a b :
  wf c -> ordered a b -> ordered (Ieee.FFMIN c a) (Ieee.FFMIN c b).
Proof.
  intros Wc (Wa & Wb & Hab). unfold Ieee.FFMIN, Ieee.gt.
  pose proof (wf_not_nan a Wa) as Na. pose proof (wf_not_nan b Wb) as Nb.
  pose proof (wf_not_nan c Wc) as Nc.
  destruct (SFltb a c) eqn:Ea, (SFltb b c) eqn:Eb.
  - now repeat split.
  - repeat split; try assumption. now apply SFltb_SFleb.
  - exfalso. apply (SFltb_not_SFleb b c Eb).
    apply (SFleb_trans c a b); try assumption. now apply SFleb_total.
  - repeat split; try assumption. now apply SFleb_refl.
Qed.

Lemma FFMAX_ordered c a b :
  wf c -> ordered a b -> ordered (Ieee.FFMAX c a) (Ieee.FFMAX c b).
Proof.
  intros Wc (Wa & Wb & Hab). unfold Ieee.FFMAX, Ieee.gt.
  pose proof (wf_not_nan a Wa) as Na. pose proof (wf_not_nan b Wb) as Nb.
  pose proof (wf_not_nan c Wc) as Nc.
  destruct (SFltb a c) eqn:Ea, (SFltb b c) eqn:Eb.
  - repeat split; try assumption. now apply SFleb_refl.
  - repeat split; try assumption. now apply SFleb_total.
  - exfalso. apply (SFltb_not_SFleb b c Eb).
    apply (SFleb_trans c a b); try assumption. now apply SFleb_total.
  - now repeat split.
Qed.

(** A division always yields a number of the format or a NaN, whatever
    its operands. *)
Lemma SFdiv_wf_or_nan x y :
  SFdiv prec emax x y = S754_nan \/ wf (SFdiv prec emax x y).
Proof.
  destruct x as [sx|sx| |sx mx ex], y as [sy|sy| |sy my ey];
    try (left; reflexivity); try (right; exact I).
  right. exact (rounds_wf prec emax Hprec _ _ (SFdiv_rounds prec emax Hprec sx mx ex sy my ey)).
Qed.

End Order.

(** ** Correctly rounded operations keep the order *)

Lemma lift_ordered p1 E1 p2 E2 (op : spec_float -> spec_float) (F : R -> R) :
  0 < p1 -> 0 < p2 ->
  (forall a, wf p1 E1 a -> finz a -> rounds p2 E2 (F (B2R a)) (op a)) ->
  (forall x y, (x <= y)%R -> (F x <= F y)%R) ->
  (forall s, op (S754_infinity s) = S754_infinity s) ->
  forall a b, ordered p1 E1 a b -> ordered p2 E2 (op a) (op b).
Proof.
  intros H1 H2 Hr Hm Hi a b (Wa & Wb & Hab).
  destruct (wf_cases p1 E1 a Wa) as [Fa|[sa ->]];
    destruct (wf_cases p1 E1 b Wb) as [Fb|[sb ->]].
  - apply (rounds_ordered p2 E2 H2 (F (B2R a)) (F (B2R b))); auto.
    apply Hm. now apply (SFleb_B2R p1 E1 H1).
  - destruct (le_inf_inv _ _ Hab) as [->| ->]; [|destruct Fa].
    rewrite Hi. pose proof (rounds_wf p2 E2 H2 _ _ (Hr a Wa Fa)) as W.
    split; [exact W|]. split; [exact I|].
    apply le_pos_inf. now apply (wf_not_nan p2 E2).
  - destruct (inf_le_inv _ _ Hab) as [->| ->]; [|destruct Fb].
    rewrite Hi. pose proof (rounds_wf p2 E2 H2 _ _ (Hr b Wb Fb)) as W.
    split; [exact I|]. split; [exact W|].
    apply neg_inf_le. now apply (wf_not_nan p2 E2).
  - rewrite !Hi. split; [exact I|]. split; [exact I|]. exact Hab.
Qed.

Lemma convert_rounds p E a :
  0 < p -> finz a -> rounds p E (B2R a) (Ieee.convert p E a).
Proof.
  intros Hp Fa. destruct a as [s|s| |s m e]; try destruct Fa.
  - now apply rounds_zero.
  - now apply binary_round_rounds.
Qed.

Lemma convert_ordered p1 E1 p2 E2 a b :
  0 < p1 -> 0 < p2 -> ordered p1 E1 a b ->
  ordered p2 E2 (Ieee.convert p2 E2 a) (Ieee.convert p2 E2 b).
Proof.
  intros H1 H2.
  apply (lift_ordered p1 E1 p2 E2 (Ieee.convert p2 E2) (fun x => x)); auto.
  intros x _ Fx. now apply convert_rounds.
Qed.

Lemma SFdiv_ordered p E md ed a b :
  0 < p -> ordered p E a b ->
  ordered p E (SFdiv p E a (S754_finite false md ed))
              (SFdiv p E b (S754_finite false md ed)).
Proof.
  intros Hp.
  set (d := S754_finite false md ed).
  assert (HD : (0 < B2R d)%R).
  { simpl. pose proof (bpow_pos ed). assert (0 < IZR (Zpos md))%R by (apply IZR_lt; lia). nra. }
  apply (lift_ordered p E p E (fun x => SFdiv p E x d) (fun x => x / B2R d)%R); auto.
  - intros x Wx Fx. destruct x as [s|s| |s m e]; try destruct Fx.
    + cbn [SFdiv d B2R]. unfold Rdiv. rewrite Rmult_0_l. now apply rounds_zero.
    + now apply SFdiv_rounds.
  - intros x y Hxy. unfold Rdiv. apply Rmult_le_compat_r; [|assumption].
    apply Rlt_le, Rinv_0_lt_compat, HD.
  - intros s. simpl. now destruct s.
Qed.

Lemma SFsub_ordered p E off a b :
  0 < p -> wf p E off -> finz off -> ordered p E a b ->
  ordered p E (SFsub p E a off) (SFsub p E b off).
Proof.
  intros Hp Wo Fo.
  apply (lift_ordered p E p E (fun x => SFsub p E x off) (fun x => x - B2R off)%R); auto.
  - intros x Wx Fx.
    destruct x as [sx|sx| |sx mx ex]; try destruct Fx;
      destruct off as [so|so| |so mo eo]; try destruct Fo.
    + replace (B2R (S754_zero sx) - B2R (S754_zero so))%R with 0%R by (simpl; lra).
      simpl. destruct sx, so; now apply rounds_zero.
    + cbn [SFsub].
      replace (B2R (S754_zero sx) - B2R (S754_finite so mo eo))%R
        with (B2R (S754_finite (negb so) mo eo)).
      * apply wf_rounds; [assumption| |exact I]. exact Wo.
      * simpl. destruct so; simpl; lra.
    + cbn [SFsub].
      replace (B2R (S754_finite sx mx ex) - B2R (S754_zero so))%R
        with (B2R (S754_finite sx mx ex)) by (simpl; lra).
      now apply wf_rounds.
    + now apply SFsub_rounds.
  - intros x y Hxy. lra.
  - intros s. destruct off as [so|so| |so mo eo]; try destruct Fo; reflexivity.
Qed.

Lemma of_int_rounds p E z :
  0 < p -> rounds p E (IZR z) (binary_normalize p E z 0 false).
Proof.
  intros Hp. replace (IZR z) with (IZR z * bpow 0)%R by (rewrite bpow_0; ring).
  now apply binary_normalize_rounds.
Qed.

Lemma prec32_pos : 0 < Ieee.prec32.
Proof. reflexivity. Qed.

Lemma prec64_pos : 0 < Ieee.prec64.
Proof. reflexivity. Qed.

Lemma of_int_ordered z1 z2 :
  z1 <= z2 ->
  ordered Ieee.prec32 Ieee.emax32 (Ieee.f32_of_int z1) (Ieee.f32_of_int z2).
Proof.
  intros H. unfold Ieee.f32_of_int.
  apply (rounds_ordered _ _ prec32_pos (IZR z1) (IZR z2)).
  - apply of_int_rounds, prec32_pos.
  - apply of_int_rounds, prec32_pos.
  - now apply IZR_le.
Qed.

(** [(float)den] for a positive [int] is a positive finite number. *)
Lemma of_int_positive den :
  0 < den <= INT_MAX ->
  exists m e, Ieee.f32_of_int den = S754_finite false m e.
Proof.
  intros [H1 H2].
  destruct (of_int_ordered 1 den ltac:(lia)) as (_ & W & L1).
  destruct (of_int_ordered den (2 ^ 31) ltac:(unfold INT_MAX in H2; lia)) as (_ & _ & L2).
  change (Ieee.f32_of_int 1) with (S754_finite false 8388608 (-23)) in L1.
  change (Ieee.f32_of_int (2 ^ 31)) with (S754_finite false 8388608 8) in L2.
  destruct (Ieee.f32_of_int den) as [s|s| |s m e].
  - discriminate.
  - destruct s; discriminate.
  - destruct W.
  - destruct s; [discriminate|eauto].
Qed.

(** ** The progress value (lines 253-255 of [filter_frame]) *)

Lemma wf_f64_one : wf Ieee.prec64 Ieee.emax64 Ieee.f64_one.
Proof. apply valid_binary_wf; [reflexivity|reflexivity|discriminate]. Qed.

Lemma wf_zero p E s : wf p E (S754_zero s).
Proof. exact I. Qed.

Lemma ordered_intro p E a b :
  wf p E a -> wf p E b -> SFleb a b = true -> ordered p E a b.
Proof. intros; split; [|split]; assumption. Qed.

(** Whatever the quotient is, a NaN included, the two clamping macros
    leave a number between 0 and 1. *)
Lemma clamp_bounds r :
  r = S754_nan \/ wf Ieee.prec64 Ieee.emax64 r ->
  ordered Ieee.prec64 Ieee.emax64 (S754_zero false)
          (Ieee.FFMAX (S754_zero false) (Ieee.FFMIN Ieee.f64_one r)) /\
  ordered Ieee.prec64 Ieee.emax64
          (Ieee.FFMAX (S754_zero false) (Ieee.FFMIN Ieee.f64_one r))
          Ieee.f64_one.
Proof.
  pose proof wf_f64_one as W1.
  assert (Z1 : SFleb (S754_zero false) Ieee.f64_one = true) by reflexivity.
  assert (O1 : SFleb Ieee.f64_one Ieee.f64_one = true) by reflexivity.
  intros [->|W].
  - change (Ieee.FFMAX (S754_zero false) (Ieee.FFMIN Ieee.f64_one S754_nan))
      with Ieee.f64_one.
    split; apply ordered_intro; trivial; exact I.
  - pose proof (wf_not_nan _ _ r W) as N.
    unfold Ieee.FFMIN, Ieee.gt. destruct (SFltb r Ieee.f64_one) eqn:E1.
    + unfold Ieee.FFMAX, Ieee.gt. destruct (SFltb r (S754_zero false)) eqn:E0.
      * split; apply ordered_intro; trivial; exact I.
      * split; apply ordered_intro; trivial; try exact I.
        -- apply SFleb_total; [assumption|discriminate|assumption].
        -- now apply SFltb_SFleb.
    + change (Ieee.FFMAX (S754_zero false) Ieee.f64_one) with Ieee.f64_one.
      split; apply ordered_intro; trivial; exact I.
Qed.

(** The same after the conversion to [float] that the store into
    [progress] makes. *)
Lemma clamp_stored_bounds r :
  r = S754_nan \/ wf Ieee.prec64 Ieee.emax64 r ->
  Ieee.le Ieee.f32_zero
    (Ieee.f32_of_f64
       (Ieee.FFMAX (Ieee.f64_of_f32 Ieee.f32_zero)
          (Ieee.FFMIN (Ieee.f64_of_f32 Ieee.f32_one) r))) /\
  Ieee.le
    (Ieee.f32_of_f64
       (Ieee.FFMAX (Ieee.f64_of_f32 Ieee.f32_zero)
          (Ieee.FFMIN (Ieee.f64_of_f32 Ieee.f32_one) r)))
    Ieee.f32_one.
Proof.
  intros Hr. unfold Ieee.le.
  change (Ieee.f64_of_f32 Ieee.f32_zero) with (S754_zero false).
  change (Ieee.f64_of_f32 Ieee.f32_one) with Ieee.f64_one.
  destruct (clamp_bounds r Hr) as [L U].
  apply (convert_ordered _ _ Ieee.prec32 Ieee.emax32 _ _ prec64_pos prec32_pos) in L.
  apply (convert_ordered _ _ Ieee.prec32 Ieee.emax32 _ _ prec64_pos prec32_pos) in U.
  split; [exact (proj2 (proj2 L))|exact (proj2 (proj2 U))].
Qed.

(** C1: the progress value handed to the shader's [progress] uniform lies
    in [0,1] for every timestamp, time base, offset and duration, whether
    the elapsed time is negative, far beyond the duration, infinite or not
    a number; in particular whenever the duration is positive. *)
Theorem progress_in_unit_interval pts den off dur :
  Ieee.le Ieee.f32_zero (frame_progress pts den off dur) /\
  Ieee.le (frame_progress pts den off dur) Ieee.f32_one.
Proof.
  unfold frame_progress. apply clamp_stored_bounds.
  apply SFdiv_wf_or_nan. exact prec64_pos.
Qed.

Lemma progress_call_in_range loc pts den off dur :
  progress_in_range (GlUniform1f loc (frame_progress pts den off dur)).
Proof.
  unfold progress_in_range, frame_progress. apply clamp_stored_bounds.
  apply SFdiv_wf_or_nan. exact prec64_pos.
Qed.

(** What the clamp and the store into [progress] make of a quotient
    that is not positive. *)
Lemma clamp_of_nonpos q :
  nonpos q ->
  exists s,
    Ieee.f32_of_f64
      (Ieee.FFMAX (Ieee.f64_of_f32 Ieee.f32_zero)
         (Ieee.FFMIN (Ieee.f64_of_f32 Ieee.f32_one) q)) = S754_zero s.
Proof.
  destruct q as [s|s| |s m e]; cbn [nonpos]; intros H.
  - exists s. now destruct s.
  - destruct s; [|contradiction]. exists false. reflexivity.
  - contradiction.
  - destruct s; [|contradiction]. exists false. reflexivity.
Qed.

(** C2, as the code has it: with a duration of +0.0 or -0.0 nothing
    guards the division; the quotient is an infinity or a NaN and the
    clamp turns it into 0.0 or 1.0, so no infinity and no NaN reaches
    the uniform.  With +0.0 the progress is 0.0 when the elapsed time is
    negative and 1.0 otherwise; with -0.0 it is 0.0 when the elapsed
    time is positive and 1.0 otherwise.  With a finite negative duration
    the progress is a zero for every frame whose elapsed time is not
    negative. *)
Theorem progress_zero_duration pts den off :
  (forall s : bool,
     frame_progress pts den off (S754_zero s) =
     if (if s
         then SFltb (S754_zero false) (Ieee.f64_of_f32 (elapsed pts den off))
         else SFltb (Ieee.f64_of_f32 (elapsed pts den off)) (S754_zero false))
     then Ieee.f32_zero else Ieee.f32_one) /\
  (forall dur,
     is_finite dur = true -> SFltb dur (S754_zero false) = true ->
     SFleb (S754_zero false) (Ieee.f64_of_f32 (elapsed pts den off)) = true ->
     exists s, frame_progress pts den off dur = S754_zero s).
Proof.
  split.
  - intros s. unfold frame_progress.
    destruct (Ieee.f64_of_f32 (elapsed pts den off)) as [s'|s'| |s' m e];
      destruct s; try destruct s'; reflexivity.
  - intros dur Fd Nd Le. unfold frame_progress.
    apply clamp_of_nonpos.
    destruct dur as [sd|sd| |sd md ed]; try discriminate Fd;
      [destruct sd; discriminate Nd|].
    destruct sd; [|discriminate Nd].
    destruct (Ieee.f64_of_f32 (elapsed pts den off)) as [s'|s'| |s' m e];
      try discriminate Le.
    + exact I.
    + destruct s'; [discriminate Le|exact I].
    + destruct s'; [discriminate Le|].
      apply (rounds_nonpos Ieee.prec64 Ieee.emax64 prec64_pos
               (B2R (S754_finite false m e) / B2R (S754_finite true md ed))).
      * apply SFdiv_rounds, prec64_pos.
      * cbn [B2R]. pose proof (bpow_pos e). pose proof (bpow_pos ed).
        assert (0 < IZR (Zpos m))%R by now apply IZR_lt.
        assert (0 < IZR (Zpos md))%R by now apply IZR_lt.
        assert (Hx : (0 < IZR (Zpos m) * bpow e)%R)
          by (apply Rmult_lt_0_compat; assumption).
        assert (Hy : (0 < IZR (Zpos md) * bpow ed)%R)
          by (apply Rmult_lt_0_compat; assumption).
        replace (- IZR (Zpos md) * bpow ed)%R
          with (- (IZR (Zpos md) * bpow ed))%R by ring.
        set (X := (IZR (Zpos m) * bpow e)%R) in *.
        set (Y := (IZR (Zpos md) * bpow ed)%R) in *.
        assert (Hi : (/ - Y < 0)%R) by (apply Rinv_lt_0_compat; lra).
        unfold Rdiv. set (I := (/ - Y)%R) in *. nra.
Qed.

Lemma progress_zero_duration_witness :
  exists s,
    frame_progress 50 25 (S754_zero false) (SFopp Ieee.f64_one) = S754_zero s.
Proof.
  apply (proj2 (progress_zero_duration 50 25 (S754_zero false)));
    reflexivity.
Defined.

(** C2, counterexample: with duration 0, offset 1.0 and the very first
    timestamp the progress is 0.0, not 1.0. *)
Lemma progress_zero_duration_not_one :
  frame_progress 0 1 Ieee.f64_one (S754_zero false) <> Ieee.f32_one.
Proof. vm_compute. discriminate. Qed.

(** C3: with duration 1.0, offset 0.0 and a time base of 1, the
    timestamps 0, 1 and 2 give the progress 0.0, 1.0 and 1.0. *)
Theorem progress_examples :
  frame_progress 0 1 (S754_zero false) Ieee.f64_one = Ieee.f32_zero /\
  frame_progress 1 1 (S754_zero false) Ieee.f64_one = Ieee.f32_one /\
  frame_progress 2 1 (S754_zero false) Ieee.f64_one = Ieee.f32_one.
Proof. repeat split; vm_compute; reflexivity. Qed.

Lemma elapsed_ordered pts1 pts2 d off :
  0 < d <= INT_MAX ->
  valid_binary Ieee.prec64 Ieee.emax64 off = true -> is_finite off = true ->
  pts1 <= pts2 ->
  ordered Ieee.prec32 Ieee.emax32 (elapsed pts1 d off) (elapsed pts2 d off).
Proof.
  intros Hd Vo Fo H. unfold elapsed.
  destruct (of_int_positive d Hd) as (md & ed & ->).
  assert (Wo : wf Ieee.prec64 Ieee.emax64 off).
  { apply valid_binary_wf; [reflexivity|assumption|]. now destruct off. }
  assert (Fo' : finz off) by (destruct off; try discriminate; exact I).
  apply (convert_ordered Ieee.prec64 Ieee.emax64 Ieee.prec32 Ieee.emax32 _ _
           prec64_pos prec32_pos).
  apply (SFsub_ordered _ _ off _ _ prec64_pos Wo Fo').
  apply (convert_ordered Ieee.prec32 Ieee.emax32 Ieee.prec64 Ieee.emax64 _ _
           prec32_pos prec64_pos).
  apply (SFdiv_ordered _ _ md ed _ _ prec32_pos).
  now apply of_int_ordered.
Qed.

(** *** Monotonicity through the stages of lines 253-254 *)

Lemma ordered_refl p E a : wf p E a -> ordered p E a a.
Proof.
  intros W. apply ordered_intro; [exact W|exact W|].
  apply SFleb_refl. exact (wf_not_nan p E a W).
Qed.

(** The quotient [pts / (float)den] for a denominator that is not
    negative; with the denominator 0 it is minus infinity, a NaN or plus
    infinity as [pts] is negative, zero or positive. *)
Lemma quotient_below_or_top pts1 pts2 d :
  0 <= d <= INT_MAX -> pts1 <= pts2 ->
  below_or_top Ieee.prec32 Ieee.emax32
    (Ieee.f32_div (Ieee.f32_of_int pts1) (Ieee.f32_of_int d))
    (Ieee.f32_div (Ieee.f32_of_int pts2) (Ieee.f32_of_int d)).
Proof.
  intros [Hd Hm] H. pose proof (of_int_ordered pts1 pts2 H) as O.
  destruct (Z.eq_dec d 0) as [->|Nz].
  - change (Ieee.f32_of_int 0) with (S754_zero false).
    destruct O as (W1 & W2 & L). unfold Ieee.f32_div.
    destruct (Ieee.f32_of_int pts2) as [s2|s2| |s2 m2 e2].
    + left. now destruct (Ieee.f32_of_int pts1).
    + destruct s2.
      * right. right.
        destruct (Ieee.f32_of_int pts1) as [s1|s1| |s1 m1 e1];
          try discriminate L; try contradiction;
          destruct s1; try discriminate L.
        apply ordered_refl. exact I.
      * right. left.
        destruct (Ieee.f32_of_int pts1) as [s1|s1| |s1 m1 e1];
          try contradiction; reflexivity.
    + contradiction.
    + destruct s2.
      * right. right.
        destruct (Ieee.f32_of_int pts1) as [s1|s1| |s1 m1 e1];
          try discriminate L; try contradiction;
          destruct s1; try discriminate L; apply ordered_refl; exact I.
      * right. left.
        destruct (Ieee.f32_of_int pts1) as [s1|s1| |s1 m1 e1];
          try contradiction; reflexivity.
  - destruct (of_int_positive d ltac:(lia)) as (md & ed & ->).
    right. right. now apply SFdiv_ordered.
Qed.

(** A conversion keeps the order and the two top values. *)
Lemma convert_below_or_top p1 E1 p2 E2 a b :
  0 < p1 -> 0 < p2 -> below_or_top p1 E1 a b ->
  below_or_top p2 E2 (Ieee.convert p2 E2 a) (Ieee.convert p2 E2 b).
Proof.
  intros H1 H2 [->|[->|O]].
  - left. reflexivity.
  - right. left. reflexivity.
  - right. right. now apply (convert_ordered p1 E1).
Qed.

(** Subtracting the offset, whatever the offset is. *)
Lemma sub_below_or_top off a b :
  valid_binary Ieee.prec64 Ieee.emax64 off = true ->
  below_or_top Ieee.prec64 Ieee.emax64 a b ->
  below_or_top Ieee.prec64 Ieee.emax64 (Ieee.f64_sub a off) (Ieee.f64_sub b off).
Proof.
  intros V B. unfold Ieee.f64_sub.
  destruct off as [so|so| |so mo eo].
  - destruct B as [->|[->|O]].
    + left. now destruct a.
    + right. left. reflexivity.
    + right. right.
      apply (SFsub_ordered _ _ (S754_zero so) _ _ prec64_pos); trivial;
        exact I.
  - destruct B as [->|[->|(Wa & Wb & L)]].
    + left. now destruct a.
    + destruct so; [right; left; reflexivity|left; now destruct a].
    + destruct b as [sb|sb| |sb mb eb]; try contradiction.
      * destruct so; [right; left; reflexivity|].
        right. right.
        destruct a as [sa|sa| |sa ma ea]; try contradiction;
          try (apply ordered_refl; exact I).
        destruct sa; [apply ordered_refl; exact I|discriminate L].
      * destruct sb.
        -- destruct a as [sa|sa| |sa ma ea]; try contradiction;
             try (destruct sa; discriminate L).
           destruct sa; [|discriminate L].
           destruct so; [left; reflexivity|].
           right. right. apply ordered_refl. exact I.
        -- destruct so; [right; left; reflexivity|left; now destruct a].
      * destruct so; [right; left; reflexivity|].
        right. right.
        destruct a as [sa|sa| |sa ma ea]; try contradiction;
          try (apply ordered_refl; exact I).
        destruct sa; [apply ordered_refl; exact I|].
        destruct sb; discriminate L.
  - left. now destruct b.
  - assert (Wo : wf Ieee.prec64 Ieee.emax64 (S754_finite so mo eo)).
    { apply valid_binary_wf; [reflexivity|exact V|discriminate]. }
    destruct B as [->|[->|O]].
    + left. reflexivity.
    + right. left. reflexivity.
    + right. right.
      apply (SFsub_ordered _ _ (S754_finite so mo eo) _ _ prec64_pos);
        trivial; exact I.
Qed.

(** Dividing by a finite positive duration. *)
Lemma div_below_or_top m e a b :
  below_or_top Ieee.prec64 Ieee.emax64 a b ->
  below_or_top Ieee.prec64 Ieee.emax64
    (Ieee.f64_div a (S754_finite false m e))
    (Ieee.f64_div b (S754_finite false m e)).
Proof.
  intros [->|[->|O]].
  - left. now destruct a.
  - right. left. reflexivity.
  - right. right. now apply SFdiv_ordered.
Qed.

(** The clamp and the store into [progress]. *)
Lemma clamp_below_or_top q1 q2 :
  q1 = S754_nan \/ wf Ieee.prec64 Ieee.emax64 q1 ->
  below_or_top Ieee.prec64 Ieee.emax64 q1 q2 ->
  Ieee.le
    (Ieee.f32_of_f64
       (Ieee.FFMAX (Ieee.f64_of_f32 Ieee.f32_zero)
          (Ieee.FFMIN (Ieee.f64_of_f32 Ieee.f32_one) q1)))
    (Ieee.f32_of_f64
       (Ieee.FFMAX (Ieee.f64_of_f32 Ieee.f32_zero)
          (Ieee.FFMIN (Ieee.f64_of_f32 Ieee.f32_one) q2))).
Proof.
  intros W1 [->|[->|O]].
  - exact (proj2 (clamp_stored_bounds q1 W1)).
  - exact (proj2 (clamp_stored_bounds q1 W1)).
  - change (Ieee.f64_of_f32 Ieee.f32_zero) with (S754_zero false).
    change (Ieee.f64_of_f32 Ieee.f32_one) with Ieee.f64_one.
    apply (FFMIN_ordered _ _ prec64_pos Ieee.f64_one _ _ wf_f64_one) in O.
    apply (FFMAX_ordered _ _ prec64_pos (S754_zero false) _ _
             (wf_zero _ _ false)) in O.
    apply (convert_ordered _ _ Ieee.prec32 Ieee.emax32 _ _ prec64_pos
             prec32_pos) in O.
    exact (proj2 (proj2 O)).
Qed.

(** C4: for every time-base denominator from 0 to [INT_MAX], every
    offset (infinities and NaN included) and every finite duration
    greater than 0, the progress does not decrease when the timestamp
    grows. *)
Theorem progress_monotone pts1 pts2 d off dur :
  0 <= d <= INT_MAX ->
  valid_binary Ieee.prec64 Ieee.emax64 off = true ->
  is_finite dur = true -> Ieee.gt dur (S754_zero false) = true ->
  pts1 <= pts2 ->
  Ieee.le (frame_progress pts1 d off dur) (frame_progress pts2 d off dur).
Proof.
  intros Hd Vo Fd Pd H.
  assert (Ed : exists m e, dur = S754_finite false m e).
  { destruct dur as [s|s| |s m e]; try discriminate.
    destruct s; [discriminate|eauto]. }
  destruct Ed as (mu & eu & ->).
  unfold frame_progress. apply clamp_below_or_top.
  - apply SFdiv_wf_or_nan. exact prec64_pos.
  - apply div_below_or_top. unfold elapsed.
    apply (convert_below_or_top Ieee.prec32 Ieee.emax32 _ _ _ _
             prec32_pos prec64_pos).
    apply (convert_below_or_top Ieee.prec64 Ieee.emax64 _ _ _ _
             prec64_pos prec32_pos).
    apply sub_below_or_top; [exact Vo|].
    apply (convert_below_or_top Ieee.prec32 Ieee.emax32 _ _ _ _
             prec32_pos prec64_pos).
    now apply quotient_below_or_top.
Qed.

Lemma progress_monotone_witness :
  Ieee.le (frame_progress (-5) 0 Ieee.f64_one Ieee.f64_one)
          (frame_progress 5 0 Ieee.f64_one Ieee.f64_one).
Proof.
  apply progress_monotone; try reflexivity; unfold INT_MAX; lia.
Defined.

(** The bound [0 <= d] is needed: with the denominator -1 the progress
    falls from 1.0 at timestamp -1 to -0.0 at timestamp 0. *)
Lemma progress_not_monotone_negative_den :
  -1 <= 0 /\
  ~ Ieee.le (frame_progress (-1) (-1) (S754_zero false) Ieee.f64_one)
            (frame_progress 0 (-1) (S754_zero false) Ieee.f64_one).
Proof. split; [lia|]. unfold Ieee.le. vm_compute. discriminate. Qed.

(** ** The two ends of the transition *)

Lemma convert_wf_or_nan p E a :
  0 < p -> Ieee.convert p E a = S754_nan \/ wf p E (Ieee.convert p E a).
Proof.
  intros Hp. destruct a as [s|s| |s m e]; try (right; exact I);
    [left; reflexivity|].
  right. apply (rounds_wf p E Hp (B2R (S754_finite s m e))).
  now apply convert_rounds.
Qed.

Lemma SFleb_not_nan_l a b : SFleb a b = true -> a <> S754_nan.
Proof. intros H ->. discriminate H. Qed.

Lemma SFleb_not_nan_r a b : SFleb a b = true -> b <> S754_nan.
Proof. intros H ->. destruct a as [s|s| |s m e]; discriminate H. Qed.

Lemma positive_finite dur :
  is_finite dur = true -> Ieee.gt dur (S754_zero false) = true ->
  exists m e, dur = S754_finite false m e.
Proof.
  destruct dur as [s|s| |s m e]; intros F G; try discriminate F.
  - destruct s; discriminate G.
  - destruct s; [discriminate G|eauto].
Qed.

Lemma between_zeros p :
  SFleb p (S754_zero false) = true -> SFleb (S754_zero false) p = true ->
  exists s, p = S754_zero s.
Proof.
  destruct p as [s|s| |s m e]; intros A B; try discriminate A; [eauto| |];
    destruct s; first [discriminate A|discriminate B].
Qed.

Lemma quotient_by_itself m e :
  wf Ieee.prec64 Ieee.emax64 (S754_finite false m e) ->
  ordered Ieee.prec64 Ieee.emax64 Ieee.f64_one
    (Ieee.f64_div (S754_finite false m e) (S754_finite false m e)).
Proof.
  intros W.
  apply (rounds_ordered _ _ prec64_pos 1%R
           (B2R (S754_finite false m e) / B2R (S754_finite false m e))%R).
  - exact (of_int_rounds Ieee.prec64 Ieee.emax64 1 prec64_pos).
  - apply SFdiv_rounds, prec64_pos.
  - assert (0 < B2R (S754_finite false m e))%R.
    { cbn [B2R]. apply Rmult_lt_0_compat; [now apply IZR_lt|apply bpow_pos]. }
    right. field. lra.
Qed.

Lemma zero_while_not_started pts den off dur :
  is_finite dur = true -> Ieee.gt dur (S754_zero false) = true ->
  Ieee.le (elapsed pts den off) Ieee.f32_zero ->
  exists s, frame_progress pts den off dur = S754_zero s.
Proof.
  intros Fd Pd Le. destruct (positive_finite dur Fd Pd) as (mu & eu & ->).
  apply between_zeros;
    [|exact (proj1 (clamp_stored_bounds _
                (SFdiv_wf_or_nan _ _ prec64_pos _ _)))].
  assert (O : ordered Ieee.prec32 Ieee.emax32 (elapsed pts den off)
                Ieee.f32_zero).
  { apply ordered_intro; [|exact I|exact Le].
    destruct (convert_wf_or_nan Ieee.prec32 Ieee.emax32
                (Ieee.f64_sub
                   (Ieee.f64_of_f32
                      (Ieee.f32_div (Ieee.f32_of_int pts) (Ieee.f32_of_int den)))
                   off) prec32_pos) as [N|W]; [|exact W].
    exfalso. apply (SFleb_not_nan_l _ _ Le). exact N. }
  unfold frame_progress.
  change (Ieee.f64_of_f32 Ieee.f32_zero) with (S754_zero false).
  change (Ieee.f64_of_f32 Ieee.f32_one) with Ieee.f64_one.
  apply (convert_ordered Ieee.prec32 Ieee.emax32 Ieee.prec64 Ieee.emax64 _ _
           prec32_pos prec64_pos) in O.
  apply (SFdiv_ordered _ _ mu eu _ _ prec64_pos) in O.
  apply (FFMIN_ordered _ _ prec64_pos Ieee.f64_one _ _ wf_f64_one) in O.
  apply (FFMAX_ordered _ _ prec64_pos (S754_zero false) _ _ (wf_zero _ _ false)) in O.
  apply (convert_ordered _ _ Ieee.prec32 Ieee.emax32 _ _ prec64_pos prec32_pos) in O.
  exact (proj2 (proj2 O)).
Qed.

(** While the elapsed time is not positive the progress is a zero. *)
Theorem progress_zero_until_start pts den off dur :
  is_finite dur = true -> Ieee.gt dur (S754_zero false) = true ->
  Ieee.le (elapsed pts den off) Ieee.f32_zero ->
  exists s, frame_progress pts den off dur = S754_zero s.
Proof. exact (zero_while_not_started pts den off dur). Qed.

Lemma progress_zero_until_start_witness :
  exists s, frame_progress 0 25 Ieee.f64_one Ieee.f64_one = S754_zero s.
Proof.
  apply progress_zero_until_start; reflexivity.
Defined.

(** Once the elapsed time has reached the duration the progress is
    exactly 1.0. *)
Theorem progress_one_after_end pts den off dur :
  valid_binary Ieee.prec64 Ieee.emax64 dur = true ->
  is_finite dur = true -> Ieee.gt dur (S754_zero false) = true ->
  Ieee.le dur (Ieee.f64_of_f32 (elapsed pts den off)) ->
  frame_progress pts den off dur = Ieee.f32_one.
Proof.
  intros Vd Fd Pd Le. destruct (positive_finite dur Fd Pd) as (mu & eu & ->).
  assert (Wd : wf Ieee.prec64 Ieee.emax64 (S754_finite false mu eu)).
  { apply valid_binary_wf; [reflexivity|exact Vd|discriminate]. }
  assert (O : ordered Ieee.prec64 Ieee.emax64 (S754_finite false mu eu)
                (Ieee.f64_of_f32 (elapsed pts den off))).
  { apply ordered_intro; [exact Wd| |exact Le].
    destruct (convert_wf_or_nan Ieee.prec64 Ieee.emax64 (elapsed pts den off)
                prec64_pos) as [N|W]; [|exact W].
    exfalso. apply (SFleb_not_nan_r _ _ Le). exact N. }
  apply (SFdiv_ordered _ _ mu eu _ _ prec64_pos) in O.
  destruct O as (W1 & W2 & L).
  destruct (quotient_by_itself mu eu Wd) as (_ & _ & L1).
  pose proof (SFleb_trans _ _ prec64_pos _ _ _ wf_f64_one W1 W2 L1 L) as L2.
  unfold frame_progress.
  change (Ieee.f64_of_f32 Ieee.f32_zero) with (S754_zero false).
  change (Ieee.f64_of_f32 Ieee.f32_one) with Ieee.f64_one.
  unfold Ieee.FFMIN at 1. unfold Ieee.gt at 1. unfold Ieee.f64_div.
  destruct (SFltb (SFdiv Ieee.prec64 Ieee.emax64
                     (Ieee.f64_of_f32 (elapsed pts den off))
                     (S754_finite false mu eu)) Ieee.f64_one) eqn:E.
  - exfalso. exact (SFltb_not_SFleb _ _ E L2).
  - reflexivity.
Qed.

Lemma progress_one_after_end_witness :
  frame_progress 50 25 Ieee.f64_one Ieee.f64_one = Ieee.f32_one.
Proof.
  apply progress_one_after_end; reflexivity.
Defined.

Lemma nonneg_finite off :
  is_finite off = true -> SFleb (S754_zero false) off = true ->
  (exists s, off = S754_zero s) \/ exists m e, off = S754_finite false m e.
Proof.
  destruct off as [s|s| |s m e]; intros F L; try discriminate F.
  - left. eauto.
  - right. destruct s; [discriminate L|eauto].
Qed.

(** The elapsed time of a frame with a timestamp that is not positive,
    for an offset that is not negative. *)
Lemma elapsed_of_early_frame pts d off :
  0 < d <= INT_MAX ->
  valid_binary Ieee.prec64 Ieee.emax64 off = true -> is_finite off = true ->
  SFleb (S754_zero false) off = true ->
  pts <= 0 ->
  Ieee.le (elapsed pts d off) Ieee.f32_zero.
Proof.
  intros Hd Vo Fo Po H.
  destruct (elapsed_ordered pts 0 d off Hd Vo Fo H) as (W1 & W2 & L).
  apply (SFleb_trans _ _ prec32_pos _ _ _ W1 W2 (wf_zero _ _ false) L).
  unfold elapsed. destruct (of_int_positive d Hd) as (md & ed & ->).
  change (Ieee.f32_of_int 0) with (S754_zero false).
  change (Ieee.f64_of_f32
            (Ieee.f32_div (S754_zero false) (S754_finite false md ed)))
    with (S754_zero false).
  destruct (nonneg_finite off Fo Po) as [(s & ->)|(m & e & ->)].
  - destruct s; reflexivity.
  - change (Ieee.f64_sub (S754_zero false) (S754_finite false m e))
      with (S754_finite true m e).
    apply nonpos_nonneg_le; [|exact I].
    apply (rounds_nonpos Ieee.prec32 Ieee.emax32 prec32_pos
             (B2R (S754_finite true m e))).
    + apply binary_round_rounds, prec32_pos.
    + cbn [B2R]. pose proof (bpow_pos e).
      assert (0 < IZR (Zpos m))%R by now apply IZR_lt.
      nra.
Qed.

(** With a positive time base and the offset in the range of its
    option, a frame whose timestamp is not positive gets a progress of
    zero. *)
Theorem progress_zero_for_early_frames pts d off dur :
  0 < d <= INT_MAX ->
  valid_binary Ieee.prec64 Ieee.emax64 off = true -> is_finite off = true ->
  SFleb (S754_zero false) off = true ->
  is_finite dur = true -> Ieee.gt dur (S754_zero false) = true ->
  pts <= 0 ->
  exists s, frame_progress pts d off dur = S754_zero s.
Proof.
  intros Hd Vo Fo Po Fd Pd H.
  apply zero_while_not_started; [exact Fd|exact Pd|].
  now apply elapsed_of_early_frame.
Qed.

Lemma progress_zero_for_early_frames_witness :
  exists s, frame_progress (-3) 25 Ieee.f64_one Ieee.f64_one = S754_zero s.
Proof.
  apply progress_zero_for_early_frames; try reflexivity;
    unfold INT_MAX; lia.
Defined.

(** Strictly inside the window the clamp changes nothing: the progress
    is the quotient of elapsed time and duration, converted to [float]. *)
Theorem progress_inside_is_the_quotient pts den off dur :
  SFltb (S754_zero false)
    (Ieee.f64_div (Ieee.f64_of_f32 (elapsed pts den off)) dur) = true ->
  SFltb (Ieee.f64_div (Ieee.f64_of_f32 (elapsed pts den off)) dur)
    Ieee.f64_one = true ->
  frame_progress pts den off dur =
    Ieee.f32_of_f64 (Ieee.f64_div (Ieee.f64_of_f32 (elapsed pts den off)) dur).
Proof.
  intros L U. unfold frame_progress.
  set (q := Ieee.f64_div (Ieee.f64_of_f32 (elapsed pts den off)) dur) in *.
  change (Ieee.f64_of_f32 Ieee.f32_zero) with (S754_zero false).
  change (Ieee.f64_of_f32 Ieee.f32_one) with Ieee.f64_one.
  unfold Ieee.FFMIN, Ieee.FFMAX, Ieee.gt. rewrite U.
  destruct (SFltb q (S754_zero false)) eqn:E; [|reflexivity].
  exfalso. apply (SFltb_not_SFleb _ _ L). now apply SFltb_SFleb.
Qed.

Lemma progress_inside_is_the_quotient_witness :
  frame_progress 10 25 (S754_zero false) Ieee.f64_one =
    Ieee.f32_of_f64
      (Ieee.f64_div
         (Ieee.f64_of_f32 (elapsed 10 25 (S754_zero false)))
         Ieee.f64_one).
Proof.
  apply progress_inside_is_the_quotient; reflexivity.
Defined.

(** ** Composition of the fragment-shader source (lines 131-139) *)

Section Strings.

Open Scope string_scope.

Lemma length_append (s t : string) :
  String.length (s ++ t) = (String.length s + String.length t)%nat.
Proof. induction s as [|c s IH]; simpl; [reflexivity|now rewrite IH]. Qed.

Lemma append_assoc (s t u : string) : (s ++ t) ++ u = s ++ (t ++ u).
Proof. induction s as [|c s IH]; simpl; [reflexivity|now rewrite IH]. Qed.

Lemma truncate_all (n : nat) (s : string) :
  (String.length s <= n)%nat -> Shader.truncate n s = s.
Proof.
  revert n. induction s as [|c s IH]; intros [|n] H; simpl in *; try reflexivity.
  - lia.
  - rewrite IH; [reflexivity|lia].
Qed.

Lemma truncate_length (n : nat) (s : string) :
  String.length (Shader.truncate n s) = Nat.min n (String.length s).
Proof.
  revert n. induction s as [|c s IH]; intros [|n]; simpl; try reflexivity.
  now rewrite IH.
Qed.

Lemma c_str_idempotent (s : string) : Shader.c_str (Shader.c_str s) = Shader.c_str s.
Proof.
  induction s as [|c s IH]; simpl; [reflexivity|].
  destruct (Ascii.eqb c "000") eqn:E; simpl; [reflexivity|]. now rewrite E, IH.
Qed.

Lemma c_str_stops_at_nul (s t : string) :
  Shader.c_str (Shader.c_str s ++ String "000" t) = Shader.c_str s.
Proof.
  induction s as [|c s IH]; simpl; [reflexivity|].
  destruct (Ascii.eqb c "000") eqn:E; simpl; [reflexivity|]. now rewrite E, IH.
Qed.

Lemma strlen_nonneg (s : string) : 0 <= Shader.strlen s.
Proof. unfold Shader.strlen. lia. Qed.

Lemma template_split :
  Shader.f_shader_template =
  Shader.uniform_declarations ++ Shader.nl ++ Shader.nl ++ "%s" ++ Shader.template_suffix.
Proof. reflexivity. Qed.

(** The text [vsnprintf] builds from the template, for every argument. *)
Lemma format_template (B : string) :
  Shader.format Shader.f_shader_template B =
  Some (Shader.uniform_declarations ++ Shader.nl ++ Shader.nl ++
        Shader.c_str B ++ Shader.template_suffix).
Proof. reflexivity. Qed.

Lemma strlen_template : Shader.strlen Shader.f_shader_template = 144.
Proof. reflexivity. Qed.

Lemma format_template_length (B : string) :
  Z.of_nat (String.length (Shader.uniform_declarations ++ Shader.nl ++ Shader.nl ++
                           Shader.c_str B ++ Shader.template_suffix)) =
  Shader.composed_len (Shader.strlen Shader.f_shader_template) (Shader.strlen B).
Proof.
  rewrite strlen_template. unfold Shader.composed_len, Shader.strlen.
  rewrite !length_append.
  change (String.length Shader.uniform_declarations) with 88%nat.
  change (String.length Shader.nl) with 1%nat.
  change (String.length Shader.template_suffix) with 52%nat.
  lia.
Qed.

Lemma source_size_in_range (tlen blen : Z) :
  0 <= tlen + blen <= INT_MAX -> Shader.source_size tlen blen = tlen + blen.
Proof.
  unfold Shader.source_size, Shader.source_len, to_size_t, to_int, INT_MAX.
  intros H. rewrite Z.mul_1_r.
  rewrite (Z.mod_small (tlen + blen + 2 ^ 31)) by lia.
  rewrite Z.mod_small; lia.
Qed.

(** The length of what [snprintf] leaves in the buffer, for every
    transition source: the arithmetic of [source_size] and [stored_len]. *)
Lemma compose_length (B : string) :
  Z.of_nat (String.length (Shader.compose B)) =
  Shader.stored_len
    (Shader.source_size (Shader.strlen Shader.f_shader_template) (Shader.strlen B))
    (Shader.composed_len (Shader.strlen Shader.f_shader_template) (Shader.strlen B)).
Proof.
  unfold Shader.compose, Shader.snprintf. rewrite format_template, truncate_length.
  rewrite <- format_template_length. unfold Shader.stored_len.
  set (n := String.length _). set (size := Shader.source_size _ _). lia.
Qed.

(** For a transition source within the range of the [int] length of
    line 133, the composed source is the template's uniform
    declarations, verbatim, followed by the source (as the C string it
    is) in the place of the template's only [%s], followed by the rest
    of the template. *)
Theorem compose_substitutes_body (B : string) :
  Shader.strlen Shader.f_shader_template + Shader.strlen B <= INT_MAX ->
  Shader.compose B =
    Shader.uniform_declarations ++ Shader.nl ++ Shader.nl ++
    Shader.c_str B ++ Shader.template_suffix /\
  Shader.f_shader_template =
    Shader.uniform_declarations ++ Shader.nl ++ Shader.nl ++
    "%s" ++ Shader.template_suffix /\
  Shader.conversions Shader.f_shader_template = 1%nat.
Proof.
  intros H. split; [|split; reflexivity].
  unfold Shader.compose, Shader.snprintf. rewrite format_template.
  apply truncate_all.
  pose proof (format_template_length B) as L.
  pose proof (strlen_nonneg B) as HB. rewrite strlen_template in *.
  rewrite source_size_in_range by lia.
  unfold Shader.composed_len in L. lia.
Qed.

Lemma compose_substitutes_body_witness :
  Shader.compose Shader.f_default_transition_source =
    Shader.uniform_declarations ++ Shader.nl ++ Shader.nl ++
    Shader.c_str Shader.f_default_transition_source ++ Shader.template_suffix /\
  Shader.f_shader_template =
    Shader.uniform_declarations ++ Shader.nl ++ Shader.nl ++
    "%s" ++ Shader.template_suffix /\
  Shader.conversions Shader.f_shader_template = 1%nat.
Proof.
  apply compose_substitutes_body. vm_compute. discriminate.
Defined.

Lemma c_str_replicate (n : nat) :
  Shader.c_str (Shader.replicate n "a") = Shader.replicate n "a".
Proof.
  induction n as [|n IH]; [reflexivity|].
  cbn [Shader.replicate Shader.c_str].
  change (Ascii.eqb "a" "000") with false. cbn iota. now rewrite IH.
Qed.

Lemma length_replicate (n : nat) (c : ascii) :
  String.length (Shader.replicate n c) = n.
Proof. induction n as [|n IH]; [reflexivity|]. simpl. now rewrite IH. Qed.

Lemma strlen_replicate (n : nat) :
  Shader.strlen (Shader.replicate n "a") = Z.of_nat n.
Proof.
  unfold Shader.strlen. now rewrite c_str_replicate, length_replicate.
Qed.

Lemma strlen_four_GiB_source :
  Shader.strlen Shader.four_GiB_source = 2 ^ 32.
Proof.
  unfold Shader.four_GiB_source. rewrite strlen_replicate.
  apply Z2Nat.id. apply Z.pow_nonneg. lia.
Qed.

Lemma truncate_append (p s : string) (k : nat) :
  Shader.truncate (String.length p + k) (p ++ s) = p ++ Shader.truncate k s.
Proof. induction p as [|c p IH]; [reflexivity|]. simpl. now rewrite IH. Qed.

Lemma truncate_replicate (k n : nat) (c : ascii) (t : string) :
  Shader.truncate k (Shader.replicate (k + n) c ++ t) = Shader.replicate k c.
Proof. induction k as [|k IH]; [reflexivity|]. simpl. now rewrite IH. Qed.

Lemma full_text_length (B : string) :
  Shader.c_str B = B ->
  Z.of_nat (String.length (Shader.uniform_declarations ++ Shader.nl ++
                           Shader.nl ++ B ++ Shader.template_suffix)) =
  Shader.composed_len (Shader.strlen Shader.f_shader_template) (Shader.strlen B).
Proof. intros E. rewrite <- E at 1. apply format_template_length. Qed.

(** What [snprintf] leaves in a buffer of 144 bytes for a source made
    of at least 53 times the letter a. *)
Lemma compose_of_a_long_run (n : nat) :
  Shader.source_size (Shader.strlen Shader.f_shader_template)
    (Shader.strlen (Shader.replicate (53 + n) "a")) = 144 ->
  Shader.compose (Shader.replicate (53 + n) "a") =
    Shader.uniform_declarations ++ Shader.nl ++ Shader.nl ++
    Shader.replicate 53 "a".
Proof.
  intros S. unfold Shader.compose, Shader.snprintf.
  rewrite S, format_template, c_str_replicate.
  change (Z.to_nat (144 - 1)) with
    (String.length (Shader.uniform_declarations ++ Shader.nl ++ Shader.nl) + 53)%nat.
  change (Shader.uniform_declarations ++ Shader.nl ++ Shader.nl ++
          Shader.replicate (53 + n) "a" ++ Shader.template_suffix)
    with ((Shader.uniform_declarations ++ Shader.nl ++ Shader.nl) ++
          (Shader.replicate (53 + n) "a" ++ Shader.template_suffix)).
  rewrite truncate_append, truncate_replicate.
  now rewrite !append_assoc.
Qed.

(** C5, at the failing input: for a transition source of 2^32 times the
    letter a the composed text is the uniform declarations followed by
    the first 53 letters only; the rest of the source and the end of the
    template, with [main], are missing: the source is not substituted
    as a whole. *)
Theorem compose_cuts_the_4GiB_source :
  Shader.strlen Shader.four_GiB_source = 2 ^ 32 /\
  Shader.compose Shader.four_GiB_source =
    Shader.uniform_declarations ++ Shader.nl ++ Shader.nl ++
    Shader.replicate 53 "a" /\
  Shader.compose Shader.four_GiB_source <>
    Shader.uniform_declarations ++ Shader.nl ++ Shader.nl ++
    Shader.four_GiB_source ++ Shader.template_suffix.
Proof.
  split; [exact strlen_four_GiB_source|split].
  - unfold Shader.four_GiB_source.
    replace (Z.to_nat (2 ^ 32)) with (53 + Z.to_nat (2 ^ 32 - 53))%nat by lia.
    apply compose_of_a_long_run.
    rewrite strlen_replicate.
    replace (Z.of_nat (53 + Z.to_nat (2 ^ 32 - 53))) with (2 ^ 32) by lia.
    vm_compute. reflexivity.
  - intros E.
    apply (f_equal (fun s => Z.of_nat (String.length s))) in E.
    rewrite compose_length in E.
    rewrite (full_text_length Shader.four_GiB_source
               (c_str_replicate (Z.to_nat (2 ^ 32)))) in E.
    rewrite strlen_four_GiB_source in E.
    vm_compute in E. discriminate E.
Qed.

(** C6, at the failing input: for a transition source of 2^32
    characters the [int] length of line 133 wraps to the template's own
    length, so the buffer has 144 bytes, [snprintf] stores 143
    characters and the composed text, with its 2^32 + 142 characters,
    is cut short. *)
Theorem source_buffer_wraps_at_4GiB :
  Shader.strlen Shader.four_GiB_source = 2 ^ 32 /\
  Shader.source_size (Shader.strlen Shader.f_shader_template)
    (Shader.strlen Shader.four_GiB_source) = 144 /\
  Shader.composed_len (Shader.strlen Shader.f_shader_template)
    (Shader.strlen Shader.four_GiB_source) = 2 ^ 32 + 142 /\
  Z.of_nat (String.length (Shader.compose Shader.four_GiB_source)) = 143.
Proof.
  rewrite compose_length, strlen_four_GiB_source.
  repeat split; vm_compute; reflexivity.
Qed.

(** Within the range of [int] the buffer holds the whole composed text
    and its terminator, with one byte to spare. *)
Theorem source_buffer_fits (B : string) :
  Shader.strlen Shader.f_shader_template + Shader.strlen B <= INT_MAX ->
  Shader.composed_len (Shader.strlen Shader.f_shader_template) (Shader.strlen B) + 2 =
  Shader.source_size (Shader.strlen Shader.f_shader_template) (Shader.strlen B) /\
  Z.of_nat (String.length (Shader.compose B)) =
  Shader.composed_len (Shader.strlen Shader.f_shader_template) (Shader.strlen B).
Proof.
  intros H. pose proof (strlen_nonneg B) as HB.
  rewrite compose_length. rewrite strlen_template in *.
  rewrite source_size_in_range by lia.
  unfold Shader.composed_len, Shader.stored_len. lia.
Qed.

Lemma source_buffer_fits_witness :
  Shader.composed_len (Shader.strlen Shader.f_shader_template)
    (Shader.strlen Shader.f_default_transition_source) + 2 =
  Shader.source_size (Shader.strlen Shader.f_shader_template)
    (Shader.strlen Shader.f_default_transition_source) /\
  Z.of_nat (String.length (Shader.compose Shader.f_default_transition_source)) =
  Shader.composed_len (Shader.strlen Shader.f_shader_template)
    (Shader.strlen Shader.f_default_transition_source).
Proof. apply source_buffer_fits. vm_compute. discriminate. Defined.

(** A NUL in the transition buffer ends the transition source: the
    bytes behind it reach neither the length of line 133 nor the
    composed text. *)
Theorem compose_stops_at_nul (s t : string) :
  Shader.strlen (Shader.c_str s ++ String "000" t) = Shader.strlen s /\
  Shader.compose (Shader.c_str s ++ String "000" t) = Shader.compose s.
Proof.
  assert (L : Shader.strlen (Shader.c_str s ++ String "000" t) = Shader.strlen s).
  { unfold Shader.strlen. now rewrite c_str_stops_at_nul. }
  split; [exact L|].
  unfold Shader.compose, Shader.snprintf.
  rewrite L, !format_template, c_str_stops_at_nul. reflexivity.
Qed.

(** Between [INT_MAX] and 2^32 the [int] length of line 133 is negative,
    and its conversion to [size_t] asks [av_calloc] for all but the last
    2^31 bytes of the address space. *)
Theorem negative_length_asks_for_everything (blen : Z) :
  INT_MAX < Shader.strlen Shader.f_shader_template + blen < 2 ^ 32 ->
  Shader.source_len (Shader.strlen Shader.f_shader_template) blen =
    Shader.strlen Shader.f_shader_template + blen - 2 ^ 32 /\
  Shader.source_len (Shader.strlen Shader.f_shader_template) blen < 0 /\
  2 ^ 64 - 2 ^ 31 <=
    Shader.source_size (Shader.strlen Shader.f_shader_template) blen.
Proof.
  rewrite strlen_template. unfold INT_MAX. intros H.
  assert (L : Shader.source_len 144 blen = 144 + blen - 2 ^ 32).
  { unfold Shader.source_len, to_int.
    replace (144 + blen + 2 ^ 31) with (144 + blen - 2 ^ 31 + 1 * 2 ^ 32) by lia.
    rewrite Z.mod_add by lia. rewrite Z.mod_small; lia. }
  split; [exact L|split; [lia|]].
  unfold Shader.source_size, to_size_t. rewrite L, Z.mul_1_r.
  replace (144 + blen - 2 ^ 32) with (144 + blen - 2 ^ 32 + 2 ^ 64 + (-1) * 2 ^ 64) by lia.
  rewrite Z.mod_add by lia. rewrite Z.mod_small; lia.
Qed.

Lemma negative_length_asks_for_everything_witness :
  Shader.source_len (Shader.strlen Shader.f_shader_template) (2 ^ 31) =
    Shader.strlen Shader.f_shader_template + 2 ^ 31 - 2 ^ 32 /\
  Shader.source_len (Shader.strlen Shader.f_shader_template) (2 ^ 31) < 0 /\
  2 ^ 64 - 2 ^ 31 <=
    Shader.source_size (Shader.strlen Shader.f_shader_template) (2 ^ 31).
Proof.
  apply negative_length_asks_for_everything. vm_compute. split; reflexivity.
Defined.

End Strings.

(** ** Framing: the filter's functions only append to the trace *)

Lemma framed_ret {A} (a : A) : framed (ret a).
Proof. intros [g t]. unfold ret, initial. simpl. now rewrite app_nil_r. Qed.

Lemma framed_emit (c : call) : framed (emit c).
Proof. intros [g t]. reflexivity. Qed.

Lemma framed_get : framed get.
Proof. intros [g t]. unfold get, initial. simpl. now rewrite app_nil_r. Qed.

Lemma framed_update f : framed (update f).
Proof. intros [g t]. unfold update, initial. simpl. now rewrite app_nil_r. Qed.

Lemma framed_bind {A B} (m : M A) (k : A -> M B) :
  framed m -> (forall a, framed (k a)) -> framed (bind m k).
Proof.
  intros Hm Hk st. unfold bind.
  rewrite (Hm st). destruct (m (initial (gs st))) as [a [g1 t1]] eqn:E1.
  cbn [fst snd gs trace]. rewrite (Hk a). cbn [gs trace].
  rewrite (Hk a {| gs := g1; trace := t1 |}). cbn [gs trace fst snd].
  destruct (k a (initial g1)) as [b [g2 t2]]. cbn [fst snd gs trace].
  now rewrite app_assoc.
Qed.

Ltac framed_step :=
  first
    [ apply framed_ret | apply framed_emit | apply framed_get
    | apply framed_update
    | apply framed_bind; [|intros ?]
    | match goal with
      | |- framed (if ?b then _ else _) => destruct b
      | |- framed (match ?x with _ => _ end) => destruct x
      end ].

Ltac framed_auto := cbv zeta; unfold av_log; repeat framed_step.

Lemma build_shader_framed env src ty : framed (build_shader env src ty).
Proof. unfold build_shader. framed_auto. Qed.

Lemma read_transition_source_framed env : framed (read_transition_source env).
Proof. unfold read_transition_source. framed_auto. Qed.

Lemma build_program_framed env : framed (build_program env).
Proof.
  unfold build_program. cbv zeta.
  apply framed_bind; [apply build_shader_framed|intros v].
  destruct (v =? 0); [framed_auto|].
  apply framed_bind; [apply read_transition_source_framed|intros [early|src]];
    [framed_auto|].
  apply framed_bind; [framed_auto|intros _].
  destruct (negb _); [framed_auto|].
  apply framed_bind; [framed_auto|intros _].
  apply framed_bind; [destruct src; framed_auto|intros _].
  apply framed_bind; [framed_auto|intros c].
  apply framed_bind; [apply build_shader_framed|intros f].
  framed_auto.
Qed.

Lemma vbo_setup_framed env : framed (vbo_setup env).
Proof. unfold vbo_setup. framed_auto. Qed.

Lemma tex_setup_framed env l : framed (tex_setup env l).
Proof. unfold tex_setup. framed_auto. Qed.

Lemma uniforms_setup_framed env l : framed (uniforms_setup env l).
Proof. unfold uniforms_setup. framed_auto. Qed.

Lemma config_props_framed env l : framed (config_props env l).
Proof.
  unfold config_props. cbv zeta.
  apply framed_bind; [framed_auto|intros _].
  apply framed_bind; [framed_auto|intros _].
  apply framed_bind; [framed_auto|intros _].
  destruct (_ =? 0); [framed_auto|].
  apply framed_bind; [framed_auto|intros _].
  apply framed_bind; [framed_auto|intros _].
  apply framed_bind; [framed_auto|intros _].
  apply framed_bind; [apply build_program_framed|intros [code|]]; [|framed_auto].
  destruct (code <? 0); [framed_auto|].
  apply framed_bind; [framed_auto|intros c].
  apply framed_bind; [framed_auto|intros _].
  apply framed_bind; [apply vbo_setup_framed|intros _].
  apply framed_bind; [apply tex_setup_framed|intros _].
  apply framed_bind; [apply uniforms_setup_framed|intros _].
  framed_auto.
Qed.

Lemma filter_frame_framed env l1 l2 f : framed (filter_frame env l1 l2 f).
Proof. unfold filter_frame. framed_auto. Qed.

Lemma filter_frames_framed env l1 l2 fs : framed (filter_frames env l1 l2 fs).
Proof.
  induction fs as [|f fs IH]; simpl; [apply framed_ret|].
  apply framed_bind; [apply filter_frame_framed|intros c].
  apply framed_bind; [exact IH|intros cs]. apply framed_ret.
Qed.

Lemma init_framed env : framed (init env).
Proof. unfold init. framed_auto. Qed.

Lemma uninit_framed : framed uninit.
Proof. unfold uninit. framed_auto. Qed.

(** ** Symbolic execution of the filter's functions *)

Opaque Shader.strlen Shader.source_len Shader.source_size Shader.compose
       Shader.truncate Shader.c_str to_size_t to_int Ieee.f32_of_int
       frame_progress Shader.v_shader_source Shader.f_shader_template
       Shader.f_default_transition_source position Z.to_nat.

(** The run [m st] is reduced to weak head normal form, unfolding only
    the filter's functions and the monad; when it is stuck on an answer
    of the oracle, that answer is split into its cases. *)
Ltac whnf_run t :=
  eval lazy head beta iota zeta delta
    [configure session config_props build_program read_transition_source
     build_shader vbo_setup tex_setup uniforms_setup filter_frame
     filter_frames frames_after init uninit query_formats av_log
     bind ret emit get update initial gs trace] in t.

(** The condition or the optional answer the head of a run waits for. *)
Ltac stuck_on t :=
  lazymatch t with
  | (if ?b then _ else _) => constr:(b)
  | (match ?x with Some _ => _ | None => _ end) => constr:(x)
  | (match ?x with (a, b) => _ end) => stuck_on x
  | (match ?x with inl a => _ | inr b => _ end) => stuck_on x
  | (match ?x with Return a => _ | Undefined => _ end) => stuck_on x
  | ?f _ => stuck_on f
  end.

(** The atomic answer inside a condition built from boolean connectives. *)
Ltac atom_of c :=
  lazymatch c with
  | negb ?x => atom_of x
  | (?x || _)%bool => atom_of x
  | (?x && _)%bool => atom_of x
  | _ => constr:(c)
  end.

Ltac normal_state :=
  cbn [gs trace fst snd app initial
       set_first_pts set_progress set_frame_tex set_program set_pos_buf
       set_window set_f_shader_source
       duration offset source first_pts progress frame_tex program pos_buf
       window f_shader_source] in *.

Ltac run_step :=
  lazymatch goal with
  | |- forall r, r = ?t -> _ =>
      let t' := whnf_run t in
      change t with t';
      cbn [gs trace fst snd set_first_pts set_progress set_frame_tex
           set_program set_pos_buf set_window set_f_shader_source
           duration offset source first_pts progress frame_tex program
           pos_buf window f_shader_source];
      lazymatch goal with
      | |- forall r, r = ?t' -> _ =>
      lazymatch t' with
      | (_, _) => fail
      | _ =>
          let c0 := stuck_on t' in
          let c := atom_of c0 in
          first
            [ match goal with H : c = _ |- _ => rewrite H; cbn [negb orb andb] end
            | let Hc := fresh "Hc" in
              destruct c eqn:Hc; try discriminate Hc; cbn [negb orb andb] ]
      end
      end
  end.

(** [run_term t] evaluates the run [t] occurring in the goal, leaving one
    goal for each way the oracle can answer. *)
Ltac run_term t :=
  let r := fresh "r" in
  let E := fresh "E" in
  remember t as r eqn:E; revert r E;
  repeat run_step;
  lazymatch goal with
  | |- forall r, r = ?t -> _ => let t' := whnf_run t in change t with t'
  end;
  intros r E; subst r; normal_state.

(** ** The life cycle of the GPU resources *)

Lemma lifecycle_app live t1 t2 :
  lifecycle live (t1 ++ t2) =
  match lifecycle live t1 with Some l => lifecycle l t2 | None => None end.
Proof.
  revert live. induction t1 as [|c t1 IH]; intros live; simpl; [reflexivity|].
  destruct (releases c) as [r|].
  - destruct (is_live r live); [apply IH|reflexivity].
  - destruct (creates c); apply IH.
Qed.

Lemma lifecycle_neutral live t :
  Forall neutral t -> lifecycle live t = Some live.
Proof.
  induction 1 as [|c t [Hc Hr] _ IH]; simpl; [reflexivity|].
  now rewrite Hr, Hc.
Qed.

Ltac known_answers :=
  repeat match goal with
         | H : ?b = true |- context [if ?b then _ else _] => rewrite H
         | H : ?b = false |- context [if ?b then _ else _] => rewrite H
         end.

Ltac lifecycle_eval :=
  unfold owned, named;
  cbn [lifecycle releases creates named is_live remove_one resource_eqb owned
       set_first_pts set_progress set_frame_tex set_program set_pos_buf
       set_window set_f_shader_source
       frame_tex pos_buf program f_shader_source window app orb Z.eqb];
  rewrite ?Z.eqb_refl.

Ltac lifecycle_crunch :=
  repeat (lifecycle_eval; known_answers;
          try match goal with
              | |- context [?x =? 0] => destruct (x =? 0) eqn:?
              end);
  try reflexivity.

Lemma config_props_lifecycle env l c :
  unconfigured c ->
  lifecycle [] (trace (snd (config_props env l (initial c)))) =
    Some (owned (gs (snd (config_props env l (initial c))))) /\
  (window (gs (snd (config_props env l (initial c)))) = 0 ->
   program (gs (snd (config_props env l (initial c)))) = 0 /\
   pos_buf (gs (snd (config_props env l (initial c)))) = 0 /\
   frame_tex (gs (snd (config_props env l (initial c)))) = 0).
Proof.
  destruct c as [du off src fp pr ft pg pb wn fs].
  intros (Hw & Hp & Hb & Ht & Hs). simpl in Hw, Hp, Hb, Ht, Hs. subst.
  match goal with |- context [config_props ?e ?l ?s] => run_term (config_props e l s) end;
    (split; [lifecycle_crunch|]); intros Hz;
    try (repeat split; reflexivity);
    match goal with H : (?x =? 0) = false |- _ => rewrite Hz in H; discriminate end.
Qed.

Lemma bind_run {A B} (m : M A) (k : A -> M B) st :
  bind m k st = k (fst (m st)) (snd (m st)).
Proof. unfold bind. now destruct (m st). Qed.

Lemma framed_run {A} (m : M A) st :
  framed m ->
  fst (m st) = fst (m (initial (gs st))) /\
  gs (snd (m st)) = gs (snd (m (initial (gs st)))) /\
  trace (snd (m st)) = trace st ++ trace (snd (m (initial (gs st)))).
Proof. intros H. rewrite (H st). cbn [fst snd gs trace]. auto. Qed.

Lemma filter_frame_neutral env l1 l2 f c :
  gs (snd (filter_frame env l1 l2 f (initial c))) = c /\
  Forall neutral (trace (snd (filter_frame env l1 l2 f (initial c)))).
Proof.
  run_term (filter_frame env l1 l2 f (initial c));
    (split; [reflexivity|]); repeat constructor.
Qed.

Lemma filter_frames_neutral env l1 l2 fs : forall c,
  gs (snd (filter_frames env l1 l2 fs (initial c))) = c /\
  Forall neutral (trace (snd (filter_frames env l1 l2 fs (initial c)))).
Proof.
  induction fs as [|f fs IH]; intros c; simpl.
  - split; [reflexivity|constructor].
  - rewrite !bind_run. cbn [ret snd gs trace].
    destruct (filter_frame_neutral env l1 l2 f c) as [G1 N1].
    destruct (framed_run (filter_frames env l1 l2 fs)
                (snd (filter_frame env l1 l2 f (initial c)))
                (filter_frames_framed env l1 l2 fs)) as (_ & G2 & T2).
    rewrite G1 in G2, T2. destruct (IH c) as [G3 N3].
    rewrite G2, T2. split; [assumption|]. apply Forall_app. now split.
Qed.

Lemma uninit_lifecycle c :
  guarded c ->
  lifecycle (owned c) (trace (snd (uninit (initial c)))) = Some [].
Proof.
  destruct c as [du off src fp pr ft pg pb wn fs]. unfold guarded.
  cbn [window program pos_buf frame_tex]. intros G.
  match goal with |- context [uninit ?s] => run_term (uninit s) end;
    try match goal with
        | H : (wn =? 0) = true |- _ =>
            apply Z.eqb_eq in H; destruct (G H) as (-> & -> & ->); subst wn
        end;
    lifecycle_crunch.
Qed.

Lemma init_neutral env c :
  unconfigured c ->
  unconfigured (gs (snd (init env (initial c)))) /\
  Forall neutral (trace (snd (init env (initial c)))).
Proof.
  destruct c as [du off src fp pr ft pg pb wn fs]. intros U.
  run_term (init env (initial
     {| duration := du; offset := off; source := src; first_pts := fp;
        progress := pr; frame_tex := ft; program := pg; pos_buf := pb;
        window := wn; f_shader_source := fs |}));
    (split; [exact U | repeat constructor]).
Qed.

Lemma fresh_context_unconfigured dur off src :
  unconfigured (fresh_context dur off src).
Proof. repeat split. Qed.

Lemma unconfigured_owns_nothing c :
  unconfigured c -> owned c = [] /\ guarded c.
Proof.
  destruct c as [du off src fp pr ft pg pb wn fs].
  intros (Hw & Hp & Hb & Ht & Hs). simpl in Hw, Hp, Hb, Ht, Hs. subst.
  split; [reflexivity|]. intros _. repeat split.
Qed.

(** The trace of a session is the traces of its stages, each run from
    the context the stage before left. *)
Lemma session_trace env l1 l2 frames c :
  trace (snd (session env l1 l2 frames (initial c))) =
    trace (snd (init env (initial c))) ++
    (if fst (init env (initial c)) <? 0
     then trace (snd (uninit (initial (gs (snd (init env (initial c)))))))
     else
       trace (snd (config_props env l1
                     (initial (gs (snd (init env (initial c))))))) ++
       trace (snd (filter_frames env l1 l2
                     (frames_after
                        (fst (config_props env l1
                                (initial (gs (snd (init env (initial c)))))))
                        frames)
                     (initial (gs (snd (config_props env l1
                        (initial (gs (snd (init env (initial c))))))))))) ++
       trace (snd (uninit
                     (initial (gs (snd (config_props env l1
                        (initial (gs (snd (init env (initial c))))))))))))
    .
Proof.
  unfold session. rewrite bind_run.
  set (st1 := snd (init env (initial c))).
  destruct (fst (init env (initial c)) <? 0).
  - rewrite !bind_run. cbn [ret snd].
    destruct (framed_run _ st1 uninit_framed) as (_ & _ & T). exact T.
  - rewrite !bind_run. cbn [ret snd].
    destruct (framed_run _ st1 (config_props_framed env l1)) as (F2 & G2 & T2).
    set (st2 := snd (config_props env l1 st1)) in *.
    rewrite F2.
    set (fs := frames_after (fst (config_props env l1 (initial (gs st1)))) frames).
    destruct (framed_run _ st2 (filter_frames_framed env l1 l2 fs))
      as (_ & G3 & T3).
    set (st3 := snd (filter_frames env l1 l2 fs st2)) in *.
    destruct (framed_run _ st3 uninit_framed) as (_ & _ & T4).
    rewrite (proj1 (filter_frames_neutral env l1 l2 fs (gs st2))) in G3.
    rewrite T4, T3, T2, G3, G2, <- !app_assoc. reflexivity.
Qed.

(** C9: over the whole life of an instance - [init], [config_props] with
    any outcome, any number of frames after a successful configuration,
    [uninit] - every release names a
    resource that was created before and is still live, and at the end
    none of the window, program, quad buffer, frame texture and
    composed-source buffer is left: each one created is released exactly
    once, and nothing that was not created is released.  The delete calls
    a partially initialised instance makes on the name 0 release nothing. *)
Theorem session_releases_exactly_the_created env l1 l2 frames dur off src :
  lifecycle []
    (trace (snd (session env l1 l2 frames (initial (fresh_context dur off src)))))
  = Some [].
Proof.
  rewrite session_trace.
  destruct (init_neutral env _ (fresh_context_unconfigured dur off src))
    as [U1 T1].
  set (c1 := gs (snd (init env (initial (fresh_context dur off src))))) in *.
  rewrite lifecycle_app, (lifecycle_neutral _ _ T1).
  destruct (fst (init env (initial (fresh_context dur off src))) <? 0).
  - destruct (unconfigured_owns_nothing c1 U1) as [O G].
    pose proof (uninit_lifecycle c1 G) as L. rewrite O in L. exact L.
  - destruct (config_props_lifecycle env l1 c1 U1) as [L2 Gd].
    rewrite lifecycle_app, L2. cbv beta iota.
    rewrite lifecycle_app.
    rewrite (lifecycle_neutral _ _
               (proj2 (filter_frames_neutral env l1 l2 _ _))).
    now apply uninit_lifecycle.
Qed.

(** ** Configuration: what [config_props] returns, logs and leaves behind *)

(** The conditions of a statement are unfolded down to the oracle's
    answers, so that a case split on an answer rewrites them too. *)
Ltac expose :=
  unfold configure, all_goes_well, compile_fails, builds, loaded_source,
    buffer_granted in *;
  cbn [source] in *.

Ltac run_configure :=
  match goal with
  | |- context [config_props ?e ?l ?s] => run_term (config_props e l s)
  end; cbn [fst snd gs trace].

Ltac facts :=
  repeat match goal with
         | H : _ /\ _ |- _ => destruct H
         | H : exists _, _ |- _ => destruct H
         | H : (_ && _)%bool = true |- _ => apply andb_prop in H
         | H : negb _ = true |- _ => apply negb_true_iff in H
         | H : (_ =? _) = true |- _ => apply Z.eqb_eq in H
         | H : (_ =? _) = false |- _ => apply Z.eqb_neq in H
         | H : Some _ = Some _ |- _ => injection H as H
         end;
  subst.

Ltac settle := intros; facts; try congruence.

Ltac find_call := cbn [In]; repeat (first [left; reflexivity | right]).

Ltac no_such_call :=
  let U := fresh "U" in intros U; cbn [In] in U; intuition discriminate.

Lemma with_info_log_irrelevant env log c l :
  configure (with_info_log env log) c l = configure env c l.
Proof. reflexivity. Qed.

(** [build_shader] answers the handle the driver gave exactly when the
    driver created a shader object, recognised it and compiled the
    source; in every other case it answers 0, and it never touches the
    context. *)
Theorem build_shader_result env src ty c :
  fst (build_shader env src ty (initial c)) =
    (if builds env ty src then o_glCreateShader env ty else 0) /\
  gs (snd (build_shader env src ty (initial c))) = c.
Proof.
  unfold builds.
  run_term (build_shader env src ty (initial c)); cbn [fst]; split;
    reflexivity.
Qed.

(** [config_props] returns 0 exactly when the window is created, both
    shaders are built, the transition source is loaded, the buffer for
    the composed source is granted and the program links. *)
Theorem configure_succeeds_iff env c l :
  fst (configure env c l) = Return 0 <-> all_goes_well env c.
Proof.
  destruct c as [du off src fp pr ft pg pb wn fs]. expose.
  run_configure; (split; [intros R; try discriminate R|settle]).
  all: try (injection R as R; rewrite R in *; discriminate).
  all: facts; split; [assumption|split; [reflexivity|]];
    eexists; repeat split; try reflexivity; assumption.
Qed.

(** After a successful [config_props]: the driver was given the vertex
    shader and then the composed fragment shader, the one log line is
    the geometry, and the context holds the window, the program, the
    quad buffer, the frame texture, the location of [progress] in the
    linked program and the composed source. *)
Theorem configure_success_state env c l ts :
  all_goes_well env c -> loaded_source env c = Some ts ->
  submitted (trace (snd (configure env c l))) =
    [Shader.v_shader_source; Shader.compose ts] /\
  logged (trace (snd (configure env c l))) = [Width_height (w l) (h l)] /\
  gs (snd (configure env c l)) =
    {| duration := duration c; offset := offset c; source := source c;
       first_pts := first_pts c;
       progress := o_glGetUniformLocation env (o_glCreateProgram env) "progress";
       frame_tex := o_glGenTextures env;
       program := o_glCreateProgram env;
       pos_buf := o_glGenBuffers env;
       window := o_glfwCreateWindow env;
       f_shader_source := Some (Shader.compose ts) |}.
Proof.
  destruct c as [du off src fp pr ft pg pb wn fs]. expose.
  intros G L. revert G L.
  run_configure; settle; repeat split; reflexivity.
Qed.

(** [all_goes_well] in a concrete world, by evaluation. *)
Ltac goes_well ts :=
  split; [discriminate|split; [reflexivity|]];
  exists ts; repeat split; reflexivity.

Lemma configure_success_state_witness :
  submitted (trace (snd (configure (sample_env None) (sample_context None)
                           sample_link))) =
    [Shader.v_shader_source;
     Shader.compose Shader.f_default_transition_source] /\
  logged (trace (snd (configure (sample_env None) (sample_context None)
                        sample_link))) = [Width_height 2 2] /\
  gs (snd (configure (sample_env None) (sample_context None) sample_link)) =
    {| duration := Ieee.f64_one; offset := S754_zero false; source := None;
       first_pts := 0; progress := 0; frame_tex := 5; program := 3;
       pos_buf := 4; window := 7;
       f_shader_source :=
         Some (Shader.compose Shader.f_default_transition_source) |}.
Proof.
  apply (configure_success_state (sample_env None) (sample_context None)
           sample_link Shader.f_default_transition_source);
    [goes_well Shader.f_default_transition_source|reflexivity].
Defined.

(** Without a window [config_props] stops at once: it returns -1 after
    the window hint, the refused creation and one log line, and makes no
    other call. *)
Theorem configure_without_window env c l :
  o_glfwCreateWindow env = 0 ->
  configure env c l =
    (Return (-1),
     {| gs := set_window 0 c;
        trace := [GlfwWindowHint GLFW_VISIBLE 0;
                  GlfwCreateWindow (w l) (h l) 0;
                  Av_log Config_props_setup_gl_error] |}).
Proof.
  destruct c as [du off src fp pr ft pg pb wn fs]. expose.
  intros W0. unfold set_window.
  cbn [duration offset source first_pts progress frame_tex program pos_buf
       f_shader_source].
  run_configure; settle; rewrite W0; reflexivity.
Qed.

Lemma configure_without_window_witness :
  configure (scripted 0 (accepts true) None true true true None "ok")
    (sample_context None) sample_link =
    (Return (-1),
     {| gs := set_window 0 (sample_context None);
        trace := [GlfwWindowHint GLFW_VISIBLE 0;
                  GlfwCreateWindow 2 2 0;
                  Av_log Config_props_setup_gl_error] |}).
Proof.
  apply (configure_without_window
           (scripted 0 (accepts true) None true true true None "ok")).
  reflexivity.
Defined.

(** A transition file that cannot be opened: [config_props] returns -1
    after logging the path; only the vertex shader was submitted, only
    the window was created, and no composed source is stored. *)
Theorem open_failure_aborts env c l path :
  o_glfwCreateWindow env <> 0 ->
  builds env GL_VERTEX_SHADER Shader.v_shader_source = true ->
  source c = Some path -> o_fopen env path = None ->
  fst (configure env c l) = Return (-1) /\
  logged (trace (snd (configure env c l))) = [Invalid_glsl_source_file path] /\
  submitted (trace (snd (configure env c l))) = [Shader.v_shader_source] /\
  lifecycle [] (trace (snd (configure env c l))) =
    Some [Window (o_glfwCreateWindow env)] /\
  f_shader_source (gs (snd (configure env c l))) = f_shader_source c.
Proof.
  destruct c as [du off src fp pr ft pg pb wn fs]. expose.
  cbn [f_shader_source]. intros W V S O. revert W V S O.
  run_configure; settle; repeat split; try reflexivity.
  lifecycle_crunch. facts. congruence.
Qed.

Lemma open_failure_aborts_witness :
  fst (configure (sample_env None) (sample_context (Some "fade.glsl"%string))
         sample_link) = Return (-1) /\
  logged (trace (snd (configure (sample_env None)
                        (sample_context (Some "fade.glsl"%string))
                        sample_link))) =
    [Invalid_glsl_source_file "fade.glsl"] /\
  submitted (trace (snd (configure (sample_env None)
                           (sample_context (Some "fade.glsl"%string))
                           sample_link))) = [Shader.v_shader_source] /\
  lifecycle [] (trace (snd (configure (sample_env None)
                              (sample_context (Some "fade.glsl"%string))
                              sample_link))) = Some [Window 7] /\
  f_shader_source (gs (snd (configure (sample_env None)
                              (sample_context (Some "fade.glsl"%string))
                              sample_link))) = None.
Proof.
  apply (open_failure_aborts (sample_env None)
           (sample_context (Some "fade.glsl"%string)) sample_link "fade.glsl");
    [discriminate|reflexivity..].
Defined.

(** When the buffer for the composed source is refused, [config_props]
    returns [AVERROR(ENOMEM)], which is -12, without a log line; the
    buffer that holds the transition file, when there is one, was
    allocated and is not freed on this path. *)
Theorem calloc_failure_keeps_the_file_buffer env c l ts :
  o_glfwCreateWindow env <> 0 ->
  builds env GL_VERTEX_SHADER Shader.v_shader_source = true ->
  loaded_source env c = Some ts -> buffer_granted env ts = false ->
  fst (configure env c l) = Return (-12) /\
  logged (trace (snd (configure env c l))) = [] /\
  f_shader_source (gs (snd (configure env c l))) = None /\
  ~ In Free (trace (snd (configure env c l))) /\
  (source c <> None ->
   exists size, In (Malloc size true) (trace (snd (configure env c l)))).
Proof.
  destruct c as [du off src fp pr ft pg pb wn fs]. expose.
  intros W V L B. revert W V L B.
  run_configure; settle;
    (split; [reflexivity|split; [reflexivity|split; [reflexivity|split]]]).
  all: try no_such_call.
  all: intros _; try (exfalso; congruence).
  all: eexists; find_call.
Qed.

Lemma calloc_failure_keeps_the_file_buffer_witness :
  fst (configure
         (scripted 7 (accepts true) (Some (sample_file true)) true false true
            None "ok")
         (sample_context (Some "fade.glsl"%string)) sample_link) =
    Return (-12) /\
  logged (trace (snd (configure
      (scripted 7 (accepts true) (Some (sample_file true)) true false true
         None "ok")
      (sample_context (Some "fade.glsl"%string)) sample_link))) = [] /\
  f_shader_source (gs (snd (configure
      (scripted 7 (accepts true) (Some (sample_file true)) true false true
         None "ok")
      (sample_context (Some "fade.glsl"%string)) sample_link))) = None /\
  ~ In Free (trace (snd (configure
      (scripted 7 (accepts true) (Some (sample_file true)) true false true
         None "ok")
      (sample_context (Some "fade.glsl"%string)) sample_link))) /\
  (source (sample_context (Some "fade.glsl"%string)) <> None ->
   exists size, In (Malloc size true) (trace (snd (configure
      (scripted 7 (accepts true) (Some (sample_file true)) true false true
         None "ok")
      (sample_context (Some "fade.glsl"%string)) sample_link)))).
Proof.
  apply (calloc_failure_keeps_the_file_buffer
           (scripted 7 (accepts true) (Some (sample_file true)) true false
              true None "ok")
           (sample_context (Some "fade.glsl"%string)) sample_link "abc");
    [discriminate|reflexivity..].
Defined.

(** A program that does not link: [config_props] returns -1 and logs
    nothing; the program handle is already in the context, no buffer
    and no texture are generated, and the program is never made
    current. *)
Theorem link_failure_is_silent env c l ts :
  o_glfwCreateWindow env <> 0 ->
  builds env GL_VERTEX_SHADER Shader.v_shader_source = true ->
  loaded_source env c = Some ts -> buffer_granted env ts = true ->
  builds env GL_FRAGMENT_SHADER (Shader.compose ts) = true ->
  o_link_status env (o_glCreateProgram env) = false ->
  fst (configure env c l) = Return (-1) /\
  logged (trace (snd (configure env c l))) = [] /\
  program (gs (snd (configure env c l))) = o_glCreateProgram env /\
  pos_buf (gs (snd (configure env c l))) = pos_buf c /\
  frame_tex (gs (snd (configure env c l))) = frame_tex c /\
  ~ In (GlUseProgram (o_glCreateProgram env)) (trace (snd (configure env c l))).
Proof.
  destruct c as [du off src fp pr ft pg pb wn fs]. expose.
  cbn [pos_buf frame_tex]. intros W V L B F K. revert W V L B F K.
  run_configure; settle; repeat split; try reflexivity; no_such_call.
Qed.

Lemma link_failure_is_silent_witness :
  fst (configure (scripted 7 (accepts true) None true true false None "ok")
         (sample_context None) sample_link) = Return (-1) /\
  logged (trace (snd (configure
      (scripted 7 (accepts true) None true true false None "ok")
      (sample_context None) sample_link))) = [] /\
  program (gs (snd (configure
      (scripted 7 (accepts true) None true true false None "ok")
      (sample_context None) sample_link))) = 3 /\
  pos_buf (gs (snd (configure
      (scripted 7 (accepts true) None true true false None "ok")
      (sample_context None) sample_link))) = 0 /\
  frame_tex (gs (snd (configure
      (scripted 7 (accepts true) None true true false None "ok")
      (sample_context None) sample_link))) = 0 /\
  ~ In (GlUseProgram 3) (trace (snd (configure
      (scripted 7 (accepts true) None true true false None "ok")
      (sample_context None) sample_link))).
Proof.
  apply (link_failure_is_silent
           (scripted 7 (accepts true) None true true false None "ok")
           (sample_context None) sample_link
           Shader.f_default_transition_source);
    [discriminate|reflexivity..].
Defined.

(** With a window and a vertex shader, [config_props] runs into a write
    through a pointer it never checked exactly when the transition file
    opens and [malloc] fails or is asked for [fsize + 1 = 0] bytes. *)
Theorem configure_undefined_iff env c l :
  o_glfwCreateWindow env <> 0 ->
  builds env GL_VERTEX_SHADER Shader.v_shader_source = true ->
  (fst (configure env c l) = Undefined <->
   exists path f, source c = Some path /\ o_fopen env path = Some f /\
     (o_malloc env (to_size_t (to_size_t (ftell_end f) + 1)) = false \/
      to_size_t (to_size_t (ftell_end f) + 1) = 0)).
Proof.
  destruct c as [du off src fp pr ft pg pb wn fs]. expose.
  intros W V. revert W V.
  run_configure; intros W V; (split; [intros R; try discriminate R|]).
  all: try (do 2 eexists; split; [reflexivity|split; [eassumption|]];
            facts; auto; fail).
  all: intros (p & f' & S & O & M); facts; try discriminate;
    try (injection S as <-); try congruence.
  all: replace f' with f in * by congruence; destruct M; congruence.
Qed.

Lemma configure_undefined_iff_witness :
  fst (configure
         (scripted 7 (accepts true) (Some (sample_file true)) false true true
            None "ok")
         (sample_context (Some "fade.glsl"%string)) sample_link) = Undefined <->
  exists path f,
    source (sample_context (Some "fade.glsl"%string)) = Some path /\
    o_fopen (scripted 7 (accepts true) (Some (sample_file true)) false true
               true None "ok") path = Some f /\
    (o_malloc (scripted 7 (accepts true) (Some (sample_file true)) false true
                 true None "ok")
       (to_size_t (to_size_t (ftell_end f) + 1)) = false \/
     to_size_t (to_size_t (ftell_end f) + 1) = 0).
Proof.
  apply (configure_undefined_iff
           (scripted 7 (accepts true) (Some (sample_file true)) false true
              true None "ok"));
    [discriminate|reflexivity].
Defined.

(** C7: a transition file that opens but whose [fread] delivers nothing
    is not noticed: [build_program] ignores what [fread] returns, so the
    first [fsize] bytes of the unfilled buffer are composed into the
    fragment shader, submitted to the driver, and [config_props] returns
    0 when the rest goes well. *)
Theorem read_failure_goes_unnoticed env c l path f :
  source c = Some path -> o_fopen env path = Some f -> fread_ok f = false ->
  all_goes_well env c ->
  fst (configure env c l) = Return 0 /\
  submitted (trace (snd (configure env c l))) =
    [Shader.v_shader_source;
     Shader.compose
       (Shader.truncate (Z.to_nat (to_size_t (ftell_end f))) (buffer_bytes f))].
Proof.
  destruct c as [du off src fp pr ft pg pb wn fs]. expose.
  intros -> O _ G. revert O G.
  run_configure; settle; split; reflexivity.
Qed.

Lemma read_failure_goes_unnoticed_witness :
  fst (configure (sample_env (Some (sample_file false)))
         (sample_context (Some "fade.glsl"%string)) sample_link) = Return 0 /\
  submitted (trace (snd (configure (sample_env (Some (sample_file false)))
                           (sample_context (Some "fade.glsl"%string))
                           sample_link))) =
    [Shader.v_shader_source; Shader.compose "abc"].
Proof.
  apply (read_failure_goes_unnoticed (sample_env (Some (sample_file false)))
           (sample_context (Some "fade.glsl"%string)) sample_link
           "fade.glsl" (sample_file false));
    [reflexivity|reflexivity|reflexivity|].
  goes_well "abc"%string.
Defined.

(** C8, as the code has it: when the vertex shader or the composed
    fragment shader is refused (creation rejected, or compile status not
    success), [config_props] returns -1 after logging one fixed line;
    the driver's diagnostic text is never asked for, and nothing the
    caller gets back depends on that text. *)
Theorem compile_failure_is_a_bare_error env c l :
  o_glfwCreateWindow env <> 0 -> compile_fails env c ->
  fst (configure env c l) = Return (-1) /\
  (logged (trace (snd (configure env c l))) = [Invalid_vertex_shader] \/
   logged (trace (snd (configure env c l))) = [Invalid_fragment_shader]) /\
  forall log, configure (with_info_log env log) c l = configure env c l.
Proof.
  intros W F. split; [|split; [|intros; apply with_info_log_irrelevant]];
    destruct c as [du off src fp pr ft pg pb wn fs]; expose; revert W F.
  - run_configure; intros W [F|F]; settle.
  - run_configure; intros W [F|F]; settle;
      first [left; reflexivity|right; reflexivity].
Qed.

(** [compile_fails] for a refused fragment shader, by evaluation. *)
Ltac fragment_refused :=
  right; split; [reflexivity|];
  exists Shader.f_default_transition_source; repeat split; reflexivity.

Lemma compile_failure_is_a_bare_error_witness :
  fst (configure
         (scripted 7 (accepts false) None true true true None "syntax error")
         (sample_context None) sample_link) = Return (-1) /\
  (logged (trace (snd (configure
      (scripted 7 (accepts false) None true true true None "syntax error")
      (sample_context None) sample_link))) = [Invalid_vertex_shader] \/
   logged (trace (snd (configure
      (scripted 7 (accepts false) None true true true None "syntax error")
      (sample_context None) sample_link))) = [Invalid_fragment_shader]) /\
  forall log,
    configure
      (with_info_log
         (scripted 7 (accepts false) None true true true None "syntax error")
         log)
      (sample_context None) sample_link =
    configure
      (scripted 7 (accepts false) None true true true None "syntax error")
      (sample_context None) sample_link.
Proof.
  apply compile_failure_is_a_bare_error;
    [discriminate|fragment_refused].
Defined.

(** C8, counterexample: two drivers that refuse the fragment shader with
    different diagnostic texts; the caller gets the same return value,
    the same context and the same calls and log lines from both, so the
    text is neither received nor can it be asked for. *)
Lemma diagnostic_text_never_reaches_the_caller :
  compile_fails
    (scripted 7 (accepts false) None true true true None "syntax error")
    (sample_context None) /\
  o_info_log
    (scripted 7 (accepts false) None true true true None "syntax error")
    2 (Shader.compose Shader.f_default_transition_source) <>
  o_info_log
    (scripted 7 (accepts false) None true true true None "undeclared identifier")
    2 (Shader.compose Shader.f_default_transition_source) /\
  configure
    (scripted 7 (accepts false) None true true true None "syntax error")
    (sample_context None) sample_link =
  configure
    (scripted 7 (accepts false) None true true true None "undeclared identifier")
    (sample_context None) sample_link /\
  logged (trace (snd (configure
      (scripted 7 (accepts false) None true true true None "syntax error")
      (sample_context None) sample_link))) = [Invalid_fragment_shader].
Proof.
  split; [fragment_refused|split; [discriminate|split; reflexivity]].
Qed.

(** ** Frames *)

Lemma frames_freed_app t1 t2 :
  frames_freed (t1 ++ t2) = (frames_freed t1 + frames_freed t2)%nat.
Proof.
  induction t1 as [|k t1 IH]; [reflexivity|].
  destruct k; simpl; rewrite IH; reflexivity.
Qed.

Lemma forwarded_app t1 t2 :
  forwarded (t1 ++ t2) = forwarded t1 ++ forwarded t2.
Proof.
  induction t1 as [|k t1 IH]; [reflexivity|].
  destruct k; simpl; rewrite IH; reflexivity.
Qed.

(** One step of [filter_frames]: [filter_frame] hands the context on as
    it found it, so the rest of the stream runs from the same context. *)
Lemma filter_frames_cons env l1 l2 f fs c :
  fst (filter_frames env l1 l2 (f :: fs) (initial c)) =
    fst (filter_frame env l1 l2 f (initial c)) ::
    fst (filter_frames env l1 l2 fs (initial c)) /\
  trace (snd (filter_frames env l1 l2 (f :: fs) (initial c))) =
    trace (snd (filter_frame env l1 l2 f (initial c))) ++
    trace (snd (filter_frames env l1 l2 fs (initial c))).
Proof.
  pose proof (proj1 (filter_frame_neutral env l1 l2 f c)) as G.
  simpl. rewrite !bind_run. cbn [ret fst snd].
  destruct (framed_run (filter_frames env l1 l2 fs)
              (snd (filter_frame env l1 l2 f (initial c)))
              (filter_frames_framed env l1 l2 fs)) as (F & _ & T).
  rewrite G in F, T. rewrite F, T. split; reflexivity.
Qed.

Lemma filter_frame_without_buffer env l1 l2 f c :
  o_ff_get_video_buffer env (w l2) (h l2) = None ->
  filter_frame env l1 l2 f (initial c) =
    (-12, {| gs := c;
             trace := [Ff_get_video_buffer (w l2) (h l2) false;
                       Av_frame_free] |}).
Proof.
  intros B. revert B.
  run_term (filter_frame env l1 l2 f (initial c)); intros B;
    [discriminate B|reflexivity].
Qed.

Lemma filter_frame_forwarded env l1 l2 f c buf :
  o_ff_get_video_buffer env (w l2) (h l2) = Some buf ->
  forwarded (trace (snd (filter_frame env l1 l2 f (initial c)))) =
    [{| pts := pts f; data := o_glReadPixels env (w l2) (h l2) |}].
Proof.
  intros B. revert B.
  run_term (filter_frame env l1 l2 f (initial c)); intros B;
    [reflexivity|discriminate B].
Qed.

Lemma filter_frame_frees_its_input env l1 l2 f c :
  frames_freed (trace (snd (filter_frame env l1 l2 f (initial c)))) = 1%nat.
Proof.
  run_term (filter_frame env l1 l2 f (initial c)); reflexivity.
Qed.

(** A frame that gets its output buffer: the progress uniform is set to
    [frame_progress] of the frame's timestamp, the frame's plane is
    uploaded in the input geometry, the one frame handed on carries the
    input's timestamp and the pixels read back, the return value is the
    next filter's, and the context is left as it was. *)
Theorem filter_frame_forwards env l1 l2 f c buf :
  o_ff_get_video_buffer env (w l2) (h l2) = Some buf ->
  fst (filter_frame env l1 l2 f (initial c)) =
    o_ff_filter_frame env
      {| pts := pts f; data := o_glReadPixels env (w l2) (h l2) |} /\
  gs (snd (filter_frame env l1 l2 f (initial c))) = c /\
  forwarded (trace (snd (filter_frame env l1 l2 f (initial c)))) =
    [{| pts := pts f; data := o_glReadPixels env (w l2) (h l2) |}] /\
  In (GlUniform1f (progress c)
        (frame_progress (pts f) (den (time_base l1)) (offset c) (duration c)))
     (trace (snd (filter_frame env l1 l2 f (initial c)))) /\
  In (GlTexImage2D (w l1) (h l1) (Some (data f)))
     (trace (snd (filter_frame env l1 l2 f (initial c)))).
Proof.
  intros B. revert B.
  run_term (filter_frame env l1 l2 f (initial c)); intros B;
    [|discriminate B].
  repeat split; try reflexivity; find_call.
Qed.

Lemma filter_frame_forwards_witness :
  fst (filter_frame (sample_env None) sample_link sample_link sample_frame
         (initial sample_configured)) =
    o_ff_filter_frame (sample_env None)
      {| pts := 50; data := o_glReadPixels (sample_env None) 2 2 |} /\
  gs (snd (filter_frame (sample_env None) sample_link sample_link sample_frame
             (initial sample_configured))) = sample_configured /\
  forwarded (trace (snd (filter_frame (sample_env None) sample_link
                           sample_link sample_frame
                           (initial sample_configured)))) =
    [{| pts := 50; data := o_glReadPixels (sample_env None) 2 2 |}] /\
  In (GlUniform1f 0
        (frame_progress 50 25 (S754_zero false) Ieee.f64_one))
     (trace (snd (filter_frame (sample_env None) sample_link sample_link
                    sample_frame (initial sample_configured)))) /\
  In (GlTexImage2D 2 2 (Some [1; 2; 3]))
     (trace (snd (filter_frame (sample_env None) sample_link sample_link
                    sample_frame (initial sample_configured)))).
Proof.
  apply (filter_frame_forwards (sample_env None) sample_link sample_link
           sample_frame sample_configured [0; 0; 0]).
  reflexivity.
Defined.

(** Every input frame is freed exactly once, whether or not it got an
    output buffer. *)
Theorem every_frame_is_freed_once env l1 l2 frames c :
  frames_freed (trace (snd (filter_frames env l1 l2 frames (initial c)))) =
  List.length frames.
Proof.
  induction frames as [|f fs IH]; [reflexivity|].
  destruct (filter_frames_cons env l1 l2 f fs c) as [_ T].
  rewrite T, frames_freed_app, filter_frame_frees_its_input, IH.
  reflexivity.
Qed.

(** When the output buffers are granted, the frames handed to the next
    filter carry the timestamps of the input frames, one for one and in
    order. *)
Theorem forwarded_frames_keep_pts env l1 l2 frames c buf :
  o_ff_get_video_buffer env (w l2) (h l2) = Some buf ->
  map pts (forwarded
             (trace (snd (filter_frames env l1 l2 frames (initial c))))) =
  map pts frames.
Proof.
  intros B. induction frames as [|f fs IH]; [reflexivity|].
  destruct (filter_frames_cons env l1 l2 f fs c) as [_ T].
  rewrite T, forwarded_app, (filter_frame_forwarded env l1 l2 f c buf B),
    map_app, IH.
  reflexivity.
Qed.

Lemma forwarded_frames_keep_pts_witness :
  map pts (forwarded
             (trace (snd (filter_frames (sample_env None) sample_link
                            sample_link
                            [sample_frame; {| pts := 51; data := [] |}]
                            (initial sample_configured))))) =
  map pts [sample_frame; {| pts := 51; data := [] |}].
Proof.
  apply (forwarded_frames_keep_pts (sample_env None) sample_link sample_link
           [sample_frame; {| pts := 51; data := [] |}] sample_configured
           [0; 0; 0]).
  reflexivity.
Defined.

(** When no output buffer is granted, every frame is answered with
    [AVERROR(ENOMEM)], which is -12; nothing is handed to the next
    filter and no GL or GLFW call is made. *)
Theorem nothing_forwarded_without_buffer env l1 l2 frames c :
  o_ff_get_video_buffer env (w l2) (h l2) = None ->
  forwarded (trace (snd (filter_frames env l1 l2 frames (initial c)))) = [] /\
  Forall (fun k => is_gl_call k = false)
    (trace (snd (filter_frames env l1 l2 frames (initial c)))) /\
  fst (filter_frames env l1 l2 frames (initial c)) =
    map (fun _ => -12) frames.
Proof.
  intros B. induction frames as [|f fs (IH1 & IH2 & IH3)].
  - repeat split; constructor.
  - destruct (filter_frames_cons env l1 l2 f fs c) as [R T].
    rewrite R, T, forwarded_app, IH1, IH3,
      (filter_frame_without_buffer env l1 l2 f c B).
    repeat split; try reflexivity.
    cbn [trace snd app]. repeat constructor. exact IH2.
Qed.

Lemma nothing_forwarded_without_buffer_witness :
  forwarded (trace (snd (filter_frames
      (scripted 7 (accepts true) None true true true None "ok")
      sample_link sample_link [sample_frame] (initial sample_configured)))) =
    [] /\
  Forall (fun k => is_gl_call k = false)
    (trace (snd (filter_frames
       (scripted 7 (accepts true) None true true true None "ok")
       sample_link sample_link [sample_frame] (initial sample_configured)))) /\
  fst (filter_frames
         (scripted 7 (accepts true) None true true true None "ok")
         sample_link sample_link [sample_frame] (initial sample_configured)) =
    map (fun _ => -12) [sample_frame].
Proof.
  apply (nothing_forwarded_without_buffer
           (scripted 7 (accepts true) None true true true None "ok")).
  reflexivity.
Defined.

(** ** The progress uniform over a whole session *)

Lemma filter_frame_in_range env l1 l2 f c :
  Forall progress_in_range (trace (snd (filter_frame env l1 l2 f (initial c)))).
Proof.
  run_term (filter_frame env l1 l2 f (initial c));
    repeat first [apply Forall_nil
                 |apply Forall_cons; [first [exact I|apply progress_call_in_range]|]].
Qed.

Lemma filter_frames_in_range env l1 l2 frames c :
  Forall progress_in_range
    (trace (snd (filter_frames env l1 l2 frames (initial c)))).
Proof.
  induction frames as [|f fs IH]; [constructor|].
  destruct (filter_frames_cons env l1 l2 f fs c) as [_ T].
  rewrite T. apply Forall_app. split; [apply filter_frame_in_range|exact IH].
Qed.

Lemma zero_call_in_range loc : progress_in_range (GlUniform1f loc Ieee.f32_zero).
Proof. split; reflexivity. Qed.

Lemma config_props_in_range env l c :
  Forall progress_in_range (trace (snd (config_props env l (initial c)))).
Proof.
  destruct c as [du off src fp pr ft pg pb wn fs].
  run_configure;
    repeat first [apply Forall_nil
                 |apply Forall_cons; [first [exact I|apply zero_call_in_range]|]].
Qed.

Lemma uninit_in_range c :
  Forall progress_in_range (trace (snd (uninit (initial c)))).
Proof.
  destruct c as [du off src fp pr ft pg pb wn fs].
  match goal with |- context [uninit ?s] => run_term (uninit s) end;
    repeat constructor.
Qed.

(** Over a whole session - configuration with any outcome, any frames,
    teardown - every value the filter hands to [glUniform1f] lies in
    [0,1]. *)
Theorem session_uniforms_in_range env l1 l2 frames c :
  Forall progress_in_range (trace (snd (session env l1 l2 frames (initial c)))).
Proof.
  rewrite session_trace. apply Forall_app. split.
  - run_term (init env (initial c)); repeat constructor.
  - destruct (fst (init env (initial c)) <? 0);
      [apply uninit_in_range|].
    repeat (apply Forall_app; split).
    + apply config_props_in_range.
    + apply filter_frames_in_range.
    + apply uninit_in_range.
Qed.

(** ** The current context over a session *)

Lemma current_context_app cur t1 t2 :
  current_context cur (t1 ++ t2) =
  match current_context cur t1 with
  | Some c => current_context c t2
  | None => None
  end.
Proof.
  revert cur. induction t1 as [|k t1 IH]; intros cur; [reflexivity|].
  destruct k; cbn [app current_context needs_context andb];
    try apply IH; destruct (cur =? 0); first [reflexivity|apply IH].
Qed.

Ltac context_crunch :=
  repeat (cbn [current_context needs_context andb app
               window program pos_buf frame_tex f_shader_source];
          rewrite ?Z.eqb_refl;
          known_answers;
          try match goal with
              | |- context [?x =? 0] => destruct (x =? 0) eqn:?
              end);
  try reflexivity.

Lemma init_context env c cur :
  current_context cur (trace (snd (init env (initial c)))) = Some cur.
Proof. run_term (init env (initial c)); reflexivity. Qed.

(** [config_props] makes the window's context current before its first
    GL call; without a window it makes none. *)
Lemma config_props_context env l c :
  current_context 0 (trace (snd (config_props env l (initial c)))) =
    Some (window (gs (snd (config_props env l (initial c))))) /\
  (window (gs (snd (config_props env l (initial c)))) = 0 ->
   forall frames,
     frames_after (fst (config_props env l (initial c))) frames = []).
Proof.
  destruct c as [du off src fp pr ft pg pb wn fs].
  run_configure; (split; [context_crunch; facts; congruence|]);
    intros Hz frames; try reflexivity; facts; congruence.
Qed.

Lemma filter_frame_context env l1 l2 f c :
  window c <> 0 ->
  current_context (window c)
    (trace (snd (filter_frame env l1 l2 f (initial c)))) = Some (window c).
Proof.
  destruct c as [du off src fp pr ft pg pb wn fs]. cbn [window].
  intros W. apply Z.eqb_neq in W. revert W.
  match goal with
  | |- context [filter_frame ?e ?a ?b ?x ?s] => run_term (filter_frame e a b x s)
  end; intros W; context_crunch.
Qed.

Lemma filter_frames_context env l1 l2 frames c :
  window c <> 0 ->
  current_context (window c)
    (trace (snd (filter_frames env l1 l2 frames (initial c)))) =
  Some (window c).
Proof.
  intros W. induction frames as [|f fs IH]; [reflexivity|].
  destruct (filter_frames_cons env l1 l2 f fs c) as [_ T].
  rewrite T, current_context_app, (filter_frame_context env l1 l2 f c W).
  exact IH.
Qed.

(** [uninit] deletes the GL objects while the window's context is still
    current, and leaves no context current. *)
Lemma uninit_context c :
  current_context (window c) (trace (snd (uninit (initial c)))) = Some 0.
Proof.
  destruct c as [du off src fp pr ft pg pb wn fs]. cbn [window].
  match goal with |- context [uninit ?s] => run_term (uninit s) end;
    context_crunch; facts; congruence.
Qed.

(** Over a whole session every call into OpenGL is made while the
    context of the session's window is current, and no context is left
    current at the end. *)
Theorem session_calls_have_a_context env l1 l2 frames dur off src :
  current_context 0
    (trace (snd (session env l1 l2 frames
                   (initial (fresh_context dur off src))))) = Some 0.
Proof.
  rewrite session_trace.
  destruct (init_neutral env _ (fresh_context_unconfigured dur off src))
    as [U1 _].
  set (c1 := gs (snd (init env (initial (fresh_context dur off src))))) in *.
  rewrite current_context_app, init_context.
  destruct (fst (init env (initial (fresh_context dur off src))) <? 0).
  - destruct U1 as (W1 & _). rewrite <- W1 at 1. apply uninit_context.
  - destruct (config_props_context env l1 c1) as [K Z0].
    rewrite current_context_app, K, current_context_app.
    set (c2 := gs (snd (config_props env l1 (initial c1)))) in *.
    destruct (Z.eq_dec (window c2) 0) as [E|N].
    + rewrite (Z0 E frames). cbn [filter_frames ret trace snd initial].
      cbn [current_context]. apply uninit_context.
    + rewrite (filter_frames_context env l1 l2 _ c2 N). apply uninit_context.
Qed.

(** ** The objects of a session *)















(** ** [uninit] on its own, and the fields no function writes *)

(** Without a window [uninit] makes no GL or GLFW call; the composed
    source is gone afterwards. *)
Theorem uninit_without_window c :
  window c = 0 ->
  Forall (fun k => is_gl_call k = false) (trace (snd (uninit (initial c)))) /\
  f_shader_source (gs (snd (uninit (initial c)))) = None.
Proof.
  destruct c as [du off src fp pr ft pg pb wn fs].
  cbn [window]. intros ->.
  match goal with |- context [uninit ?s] => run_term (uninit s) end;
    split; try reflexivity; repeat constructor.
Qed.

Lemma uninit_without_window_witness :
  Forall (fun k => is_gl_call k = false)
    (trace (snd (uninit (initial (sample_context None))))) /\
  f_shader_source (gs (snd (uninit (initial (sample_context None))))) = None.
Proof.
  apply uninit_without_window. reflexivity.
Defined.

(** [uninit] clears the pointer to the composed source and nothing
    else: the window, program, buffer and texture handles stay in the
    context, so a second [uninit] would destroy the same window again. *)
Theorem uninit_keeps_the_handles c :
  window c <> 0 ->
  gs (snd (uninit (initial c))) = set_f_shader_source None c /\
  lifecycle (owned c) (trace (snd ((uninit ;; uninit) (initial c)))) = None.
Proof.
  destruct c as [du off src fp pr ft pg pb wn fs].
  cbn [window]. intros W. apply Z.eqb_neq in W. split.
  - revert W.
    match goal with |- context [uninit ?s] => run_term (uninit s) end;
      intros W; try discriminate W; reflexivity.
  - revert W.
    match goal with |- context [bind ?m ?k ?s] => run_term (bind m k s) end;
      intros W; try discriminate W; lifecycle_crunch.
Qed.

Lemma uninit_keeps_the_handles_witness :
  gs (snd (uninit (initial sample_configured))) =
    set_f_shader_source None sample_configured /\
  lifecycle (owned sample_configured)
    (trace (snd ((uninit ;; uninit) (initial sample_configured)))) = None.
Proof.
  apply uninit_keeps_the_handles. discriminate.
Defined.

(** The options are read-only, and [first_pts] is written by [init]
    alone: [config_props], [filter_frame] and [uninit] hand all four on
    as they found them, whatever the outside world answers. *)
Theorem options_and_first_pts_are_kept env l1 l2 f c :
  (duration (gs (snd (init env (initial c)))) = duration c /\
   offset (gs (snd (init env (initial c)))) = offset c /\
   source (gs (snd (init env (initial c)))) = source c /\
   first_pts (gs (snd (init env (initial c)))) = AV_NOPTS_VALUE) /\
  (duration (gs (snd (config_props env l1 (initial c)))) = duration c /\
   offset (gs (snd (config_props env l1 (initial c)))) = offset c /\
   source (gs (snd (config_props env l1 (initial c)))) = source c /\
   first_pts (gs (snd (config_props env l1 (initial c)))) = first_pts c) /\
  (duration (gs (snd (filter_frame env l1 l2 f (initial c)))) = duration c /\
   offset (gs (snd (filter_frame env l1 l2 f (initial c)))) = offset c /\
   source (gs (snd (filter_frame env l1 l2 f (initial c)))) = source c /\
   first_pts (gs (snd (filter_frame env l1 l2 f (initial c)))) = first_pts c) /\
  (duration (gs (snd (uninit (initial c)))) = duration c /\
   offset (gs (snd (uninit (initial c)))) = offset c /\
   source (gs (snd (uninit (initial c)))) = source c /\
   first_pts (gs (snd (uninit (initial c)))) = first_pts c).
Proof.
  destruct c as [du off src fp pr ft pg pb wn fs].
  cbn [duration offset source first_pts]. repeat apply conj.
  all: lazymatch goal with
       | |- context [init ?e ?s] => run_term (init e s)
       | |- context [config_props ?e ?l ?s] => run_term (config_props e l s)
       | |- context [filter_frame ?e ?a ?b ?x ?s] =>
           run_term (filter_frame e a b x s)
       | |- context [uninit ?s] => run_term (uninit s)
       end; reflexivity.
Qed.
